(** * mupen64plus-core, device/device.c: bus fallback, PI DMA resolution,
      memory-map export, composition and lifecycle of the device.

    The development is a shallow embedding of [device.c].  Addresses are
    [Z] with the 32-bit wrap-around written out; objects of the program live
    in a store indexed by symbolic pointers ([&dev->r4300.cp0] is
    [dev ->> "r4300" ->> "cp0"]); calls into the other translation units
    (the controllers, the CPU core, the libretro environment) are recorded
    in a trace and act on the store through a parameter [extern]. *)

From Stdlib Require Import ZArith Lia Ascii String.
From stdpp Require Import base decidable option list strings.

Local Open Scope Z_scope.

(** ** Machine integers *)

Definition u32 (z : Z) : Z := z mod 2 ^ 32.

Definition u8 (z : Z) : Z := z mod 2 ^ 8.

(** [size_t] of the LP64 targets the core is built for. *)
Definition size_t (z : Z) : Z := z mod 2 ^ 64.

Definition is_size_t (z : Z) : Prop := 0 <= z < 2 ^ 64.
Definition is_u32 (z : Z) : Prop := 0 <= z < 2 ^ 32.

(** ** Pointers and the store *)

Inductive pointer : Type :=
| NULL
| Obj (name : string)                 (* an object owned by the caller   *)
| Member (p : pointer) (f : string)   (* [&p->f], and [p->f] for arrays  *)
| Offset (p : pointer) (n : Z)        (* [(uint8_t* )p + n]              *)
| Index (p : pointer) (i : nat)       (* [&p[i]]                         *)
| MemBase (base : pointer) (address : Z) (* [mem_base_u32(base, address)] *)
| Func (name : string).               (* the address of a function       *)

Notation "p ->> f" := (Member p f) (at level 41, left associativity).

#[global] Instance pointer_eq_dec : EqDecision pointer.
Proof. solve_decision. Defined.

(** What the code reads and writes through [dev]: integer cells, pointer
    cells, and per-[cp0] queues of scheduled interrupt events
    (pairs of event kind and delay). *)
Record memory : Type := {
  ints : pointer -> Z;
  ptrs : pointer -> pointer;
  queue : pointer -> list (Z * Z)
}.

Definition store_int (l : pointer) (v : Z) (s : memory) : memory :=
  {| ints := fun l' => if decide (l' = l) then v else ints s l';
     ptrs := ptrs s;
     queue := queue s |}.

Definition enqueue (l : pointer) (e : Z * Z) (s : memory) : memory :=
  {| ints := ints s;
     ptrs := ptrs s;
     queue := fun l' => if decide (l' = l) then queue s l' ++ [e] else queue s l' |}.

(** ** Constants of the headers that are not part of the sources *)

Record constants : Type := {
  MM_RDRAM_DRAM : Z;  MM_RDRAM_REGS : Z;
  MM_RSP_MEM : Z;     MM_RSP_REGS : Z;   MM_RSP_REGS2 : Z;
  MM_DPC_REGS : Z;    MM_DPS_REGS : Z;
  MM_MI_REGS : Z;     MM_VI_REGS : Z;    MM_AI_REGS : Z;
  MM_PI_REGS : Z;     MM_RI_REGS : Z;    MM_SI_REGS : Z;
  MM_DOM2_ADDR1 : Z;  MM_DD_ROM : Z;     MM_DOM2_ADDR2 : Z;
  MM_IS_VIEWER : Z;   MM_CART_ROM : Z;   MM_PIF_MEM : Z;
  MM_CART_DOM3 : Z;
  S8 : Z;
  R4300_KSEG0 : Z;    R4300_KSEG1 : Z;
  PIF_ROM_SIZE : Z;   PIF_RAM_SIZE : Z;
  RETRO_MEMDESC_CONST : Z;  RETRO_MEMDESC_SYSTEM_RAM : Z;
  GAME_CONTROLLERS_COUNT : nat;
  HW2_INT : Z;        NMI_INT : Z
}.

(** The values of the Nintendo 64 physical map on a little-endian host.
    Those of the cartridge and disk windows are the ones the comments of
    [get_pi_dma_handler] give. *)
Definition n64 : constants := {|
  MM_RDRAM_DRAM := 0x00000000;  MM_RDRAM_REGS := 0x03f00000;
  MM_RSP_MEM := 0x04000000;     MM_RSP_REGS := 0x04040000;
  MM_RSP_REGS2 := 0x04080000;
  MM_DPC_REGS := 0x04100000;    MM_DPS_REGS := 0x04200000;
  MM_MI_REGS := 0x04300000;     MM_VI_REGS := 0x04400000;
  MM_AI_REGS := 0x04500000;     MM_PI_REGS := 0x04600000;
  MM_RI_REGS := 0x04700000;     MM_SI_REGS := 0x04800000;
  MM_DOM2_ADDR1 := 0x05000000;  MM_DD_ROM := 0x06000000;
  MM_DOM2_ADDR2 := 0x08000000;
  MM_IS_VIEWER := 0x13ff0000;   MM_CART_ROM := 0x10000000;
  MM_PIF_MEM := 0x1fc00000;     MM_CART_DOM3 := 0x1fd00000;
  S8 := 3;
  R4300_KSEG0 := 0x80000000;    R4300_KSEG1 := 0xa0000000;
  PIF_ROM_SIZE := 0x7c0;        PIF_RAM_SIZE := 0x40;
  RETRO_MEMDESC_CONST := 1;     RETRO_MEMDESC_SYSTEM_RAM := 4;
  GAME_CONTROLLERS_COUNT := 4;
  HW2_INT := 0x200;             NMI_INT := 0x400
|}.

(** ** Records of the memory map *)

Inductive m64p_mem_type : Type :=
| M64P_MEM_NOTHING | M64P_MEM_RDRAM | M64P_MEM_RDRAMREG | M64P_MEM_RSPMEM
| M64P_MEM_RSPREG | M64P_MEM_RSP | M64P_MEM_DP | M64P_MEM_DPS
| M64P_MEM_VI | M64P_MEM_AI | M64P_MEM_PI | M64P_MEM_RI | M64P_MEM_SI
| M64P_MEM_FLASHRAMSTAT | M64P_MEM_ROM | M64P_MEM_PIF | M64P_MEM_MI
| M64P_MEM_DDREG | M64P_MEM_DDROM.

#[global] Instance m64p_mem_type_eq_dec : EqDecision m64p_mem_type.
Proof. solve_decision. Defined.

(** [struct mem_handler]: functions are referred to by name. *)
Record mem_handler : Type := {
  opaque : pointer;
  read32 : string;
  write32 : string
}.

(** The libretro side of a mapping: [{ ptr, len, flags }]. *)
Record retroarch_mapping_t : Type := {
  ra_ptr : pointer;
  ra_len : Z;
  ra_flags : Z
}.

Record mem_mapping : Type := {
  m_begin : Z;
  m_end : Z;
  m_type : m64p_mem_type;
  m_handler : mem_handler;
  retroarch_mapping : retroarch_mapping_t
}.

(** The fields of [struct retro_memory_descriptor] the exporter assigns;
    [memset] leaves the others at zero. *)
Record retro_memory_descriptor : Type := {
  d_ptr : pointer;
  d_start : Z;
  d_len : Z;
  d_flags : Z;
  d_select : Z;
  d_disconnect : Z
}.

Record interrupt_handler : Type := {
  ih_opaque : pointer;
  ih_callback : string
}.

Record pi_dma_handler : Type := {
  dma_read : string;
  dma_write : string
}.

(** ** Calls into the rest of the program *)

Inductive arg : Type :=
| A_ptr (p : pointer)
| A_int (z : Z)
| A_name (name : string)        (* a function, a named constant, or a
                                   parameter of the caller handed on *)
| A_mappings (ms : list mem_mapping)
| A_interrupt_handlers (hs : list interrupt_handler)
| A_mem_handler (h : mem_handler)
| A_retromap (descriptors : list retro_memory_descriptor) (num_descriptors : nat).

(** A call names its callee, or goes through a function pointer. *)
Inductive callee : Type :=
| Direct (name : string)
| Indirect (p : pointer).

#[global] Instance callee_eq_dec : EqDecision callee.
Proof. solve_decision. Defined.

Record call : Type := {
  fn : callee;
  args : list arg
}.

Record world : Type := {
  mem : memory;
  trace : list call
}.

(** ** The open bus *)

Definition read_open_bus (opaque : pointer) (address : Z) : Z :=
  let value := Z.land address 0xffff in
  let value := Z.lor value (u32 (Z.shiftl value 16)) in
  value.

Definition write_open_bus (opaque : pointer) (address value mask : Z)
    (w : world) : world :=
  w.

Section Device.

(** The constants of the absent headers, the effect on the store of a
    call into another translation unit, and the accessor [r4300_stop] of
    r4300_core.c, which yields the address of the core's stop flag. *)
Variable K : constants.
Variable extern : call -> memory -> memory.
Variable r4300_stop : pointer -> pointer.

Definition perform (c : call) (w : world) : world :=
  {| mem := extern c (mem w); trace := trace w ++ [c] |}.

Definition invoke (f : string) (a : list arg) (w : world) : world :=
  perform {| fn := Direct f; args := a |} w.

Definition invoke_ptr (f : pointer) (a : list arg) (w : world) : world :=
  perform {| fn := Indirect f; args := a |} w.

(** ** The PI DMA handler resolver *)

(** The two output parameters [*opaque] and [*handler]; a handler pointer
    is [None] when null. *)
Definition dma_out : Type := pointer * option pi_dma_handler.

(** The macro [RW(o, x)] of [get_pi_dma_handler]. *)
Definition RW_dma (o : pointer) (x : string) (out : dma_out) : dma_out :=
  let h := {| dma_read := x +:+ "_dma_read"; dma_write := x +:+ "_dma_write" |} in
  (o, Some h).

Definition get_pi_dma_handler (cart dd : pointer) (address : Z)
    (out : dma_out) : dma_out :=
  if MM_CART_ROM K <=? address then
    if MM_CART_DOM3 K <=? address then
      RW_dma cart "cart_dom3" out
    else
      RW_dma (cart ->> "cart_rom") "cart_rom" out
  else if MM_DOM2_ADDR2 K <=? address then
    RW_dma cart "cart_dom2" out
  else if MM_DOM2_ADDR1 K <=? address then
    RW_dma dd "dd_dom" out
  else
    out.

(** ** Export of the memory map to the libretro environment *)

Definition zero_desc : retro_memory_descriptor :=
  {| d_ptr := NULL; d_start := 0; d_len := 0; d_flags := 0;
     d_select := 0; d_disconnect := 0 |}.

Definition set_ptr (v : pointer) (d : retro_memory_descriptor) :=
  {| d_ptr := v; d_start := d_start d; d_len := d_len d; d_flags := d_flags d;
     d_select := d_select d; d_disconnect := d_disconnect d |}.
Definition set_start (v : Z) (d : retro_memory_descriptor) :=
  {| d_ptr := d_ptr d; d_start := v; d_len := d_len d; d_flags := d_flags d;
     d_select := d_select d; d_disconnect := d_disconnect d |}.
Definition set_len (v : Z) (d : retro_memory_descriptor) :=
  {| d_ptr := d_ptr d; d_start := d_start d; d_len := v; d_flags := d_flags d;
     d_select := d_select d; d_disconnect := d_disconnect d |}.
Definition set_flags (v : Z) (d : retro_memory_descriptor) :=
  {| d_ptr := d_ptr d; d_start := d_start d; d_len := d_len d; d_flags := v;
     d_select := d_select d; d_disconnect := d_disconnect d |}.
Definition set_select (v : Z) (d : retro_memory_descriptor) :=
  {| d_ptr := d_ptr d; d_start := d_start d; d_len := d_len d; d_flags := d_flags d;
     d_select := v; d_disconnect := d_disconnect d |}.
Definition set_disconnect (v : Z) (d : retro_memory_descriptor) :=
  {| d_ptr := d_ptr d; d_start := d_start d; d_len := d_len d; d_flags := d_flags d;
     d_select := d_select d; d_disconnect := v |}.

(** [descs[i].field = v]; a write past the end of the array has no defined
    behaviour and is [None]. *)
Definition assign (i : nat) (f : retro_memory_descriptor -> retro_memory_descriptor)
    (descs : list retro_memory_descriptor) : option (list retro_memory_descriptor) :=
  if decide (i < length descs)%nat then Some (alter f i descs) else None.

(** The state of the export loop: [descs] and [mapped_regions_count]. *)
Definition export_state : Type := list retro_memory_descriptor * nat.

(** The four assignments every branch ends with, and the increment. *)
Definition assign_region (p : pointer) (start len flags : Z)
    (st : export_state) : option export_state :=
  let '(descs, mapped_regions_count) := st in
  descs ← assign mapped_regions_count (set_ptr p) descs;
  descs ← assign mapped_regions_count (set_start start) descs;
  descs ← assign mapped_regions_count (set_len len) descs;
  descs ← assign mapped_regions_count (set_flags flags) descs;
  Some (descs, S mapped_regions_count).

(** One iteration of the loop of [setup_retroarch_memory_map]. *)
Definition export_mapping (s : memory) (dev : pointer) (mapping : mem_mapping)
    (st : export_state) : option export_state :=
  let ra := retroarch_mapping mapping in
  let kseg1_start := Z.lor (R4300_KSEG1 K) (m_begin mapping) in
  match m_type mapping with
  | M64P_MEM_RDRAM =>
      let '(descs, mapped_regions_count) := st in
      descs ← assign mapped_regions_count (set_ptr (ptrs s (dev ->> "rdram" ->> "dram"))) descs;
      descs ← assign mapped_regions_count (set_start (Z.lor (R4300_KSEG0 K) (m_begin mapping))) descs;
      descs ← assign mapped_regions_count (set_len (ra_len ra)) descs;
      descs ← assign mapped_regions_count (set_flags (ra_flags ra)) descs;
      descs ← assign mapped_regions_count (set_select 0x20000000) descs;
      descs ← assign mapped_regions_count (set_disconnect 0xC0000000) descs;
      assign_region (ptrs s (dev ->> "rdram" ->> "dram")) kseg1_start
        (ra_len ra) (ra_flags ra) (descs, S mapped_regions_count)
  | M64P_MEM_RSPMEM =>
      assign_region (ptrs s (dev ->> "sp" ->> "mem")) kseg1_start
        (ra_len ra) (ra_flags ra) st
  | M64P_MEM_FLASHRAMSTAT =>
      let p := if decide (ints s (dev ->> "cart" ->> "use_flashram") = -1)
               then dev ->> "cart" ->> "sram"
               else dev ->> "cart" ->> "flashram" in
      assign_region p kseg1_start (ra_len ra) (ra_flags ra) st
  | M64P_MEM_ROM =>
      assign_region (ptrs s (dev ->> "cart" ->> "cart_rom" ->> "rom")) kseg1_start
        (ra_len ra) (ra_flags ra) st
  | M64P_MEM_DDREG =>
      assign_region (dev ->> "dd" ->> "regs") kseg1_start
        (ra_len ra) (ra_flags ra) st
  | M64P_MEM_DDROM =>
      assign_region (ptrs s (dev ->> "dd" ->> "rom")) kseg1_start
        (ra_len ra) (ra_flags ra) st
  | M64P_MEM_PIF =>
      st ← assign_region (ptrs s (dev ->> "pif" ->> "base")) kseg1_start
             (PIF_ROM_SIZE K) (RETRO_MEMDESC_CONST K) st;
      assign_region (ptrs s (dev ->> "pif" ->> "ram"))
        (Z.lor (R4300_KSEG1 K) (u32 (m_begin mapping + PIF_ROM_SIZE K)))
        (PIF_RAM_SIZE K) 0 st
  | _ =>
      if decide (ra_ptr ra ≠ NULL) then
        assign_region (ra_ptr ra) kseg1_start (ra_len ra) (ra_flags ra) st
      else Some st
  end.

Fixpoint export_loop (s : memory) (dev : pointer) (mappings : list mem_mapping)
    (st : export_state) : option export_state :=
  match mappings with
  | [] => Some st
  | mapping :: rest =>
      st ← export_mapping s dev mapping st;
      export_loop s dev rest st
  end.

(** [mappings] stands for the array together with [mappings_count]. *)
Definition setup_retroarch_memory_map (mappings : list mem_mapping)
    (dev : pointer) (w : world) : option world :=
  let descs := replicate (length mappings + 2) zero_desc in
  let mapped_regions_count := 0%nat in
  '(descs, mapped_regions_count) ←
     export_loop (mem w) dev mappings (descs, mapped_regions_count);
  Some (invoke "environ_cb"
          [A_name "RETRO_ENVIRONMENT_SET_MEMORY_MAPS";
           A_retromap descs mapped_regions_count] w).

(** ** Composition *)

(** The arguments of [init_device] the function itself computes with; every
    other parameter is handed on to a callee as it is ([A_name]). *)
Record config : Type := {
  base : pointer;
  dram_size : Z;
  rom_size : Z;
  dd_rom_size : Z
}.

(** The macros [R], [W], [RW] and [A] of [init_device]. *)
Definition R (x : string) : string := "read_" +:+ x.
Definition W (x : string) : string := "write_" +:+ x.
Definition RW (o : pointer) (x : string) : mem_handler :=
  {| opaque := o; read32 := R x; write32 := W x |}.
Definition A (x m : Z) (t : m64p_mem_type) (h : mem_handler)
    (ra : retroarch_mapping_t) : mem_mapping :=
  {| m_begin := x; m_end := u32 (Z.lor x m); m_type := t;
     m_handler := h; retroarch_mapping := ra |}.
Definition RA (p : pointer) (len flags : Z) : retroarch_mapping_t :=
  {| ra_ptr := p; ra_len := len; ra_flags := flags |}.
Definition IH (o : pointer) (f : string) : interrupt_handler :=
  {| ih_opaque := o; ih_callback := f |}.

Definition interrupt_handlers (dev : pointer) : list interrupt_handler := [
  IH (dev ->> "vi")              "vi_vertical_interrupt_event"; (* VI *)
  IH (dev ->> "r4300")           "compare_int_handler";         (* COMPARE *)
  IH (dev ->> "r4300")           "check_int_handler";           (* CHECK *)
  IH (dev ->> "si")              "si_end_of_dma_event";         (* SI *)
  IH (dev ->> "pi")              "pi_end_of_dma_event";         (* PI *)
  IH (dev ->> "r4300" ->> "cp0") "special_int_handler";         (* SPECIAL *)
  IH (dev ->> "ai")              "ai_end_of_dma_event";         (* AI *)
  IH (dev ->> "sp")              "rsp_interrupt_event";         (* SP *)
  IH (dev ->> "dp")              "rdp_interrupt_event";         (* DP *)
  IH (dev ->> "pif")             "hw2_int_handler";             (* HW2 *)
  IH dev                         "nmi_int_handler";             (* NMI *)
  IH dev                         "reset_hard_handler";          (* reset_hard *)
  IH (dev ->> "sp")              "rsp_end_of_dma_event";
  IH (dev ->> "dd")              "dd_mecha_int_handler";        (* DD MECHA *)
  IH (dev ->> "dd")              "dd_bm_int_handler";           (* DD BM *)
  IH (dev ->> "dd")              "dd_dv_int_handler"            (* DD DRIVE *)
].

(** The initialiser of the local array [mappings]. *)
Definition initial_mappings (cfg : config) (dev : pointer) : list mem_mapping := [
  (* clear mappings *)
  {| m_begin := 0x00000000; m_end := 0xffffffff; m_type := M64P_MEM_NOTHING;
     m_handler := RW NULL "open_bus"; retroarch_mapping := RA NULL 0 0 |};
  (* memory map *)
  A (MM_RDRAM_DRAM K) 0x3efffff M64P_MEM_RDRAM (RW (dev ->> "rdram") "rdram_dram")
    (RA NULL (dram_size cfg) (RETRO_MEMDESC_SYSTEM_RAM K));
  A (MM_RDRAM_REGS K) 0xfffff M64P_MEM_RDRAMREG (RW (dev ->> "rdram") "rdram_regs")
    (RA (dev ->> "rdram" ->> "regs") 0xfffff 0);
  A (MM_RSP_MEM K) 0xffff M64P_MEM_RSPMEM (RW (dev ->> "sp") "rsp_mem")
    (RA NULL 0xffff 0);
  A (MM_RSP_REGS K) 0xffff M64P_MEM_RSPREG (RW (dev ->> "sp") "rsp_regs")
    (RA (dev ->> "sp" ->> "regs") 0xffff 0);
  A (MM_RSP_REGS2 K) 0xffff M64P_MEM_RSP (RW (dev ->> "sp") "rsp_regs2")
    (RA (dev ->> "sp" ->> "regs2") 0xffff 0);
  A (MM_DPC_REGS K) 0xffff M64P_MEM_DP (RW (dev ->> "dp") "dpc_regs")
    (RA (dev ->> "dp" ->> "dpc_regs") 0xffff 0);
  A (MM_DPS_REGS K) 0xffff M64P_MEM_DPS (RW (dev ->> "dp") "dps_regs")
    (RA (dev ->> "dp" ->> "dps_regs") 0xffff 0);
  A (MM_MI_REGS K) 0xffff M64P_MEM_MI (RW (dev ->> "mi") "mi_regs")
    (RA (dev ->> "mi" ->> "regs") 0xffff 0);
  A (MM_VI_REGS K) 0xffff M64P_MEM_VI (RW (dev ->> "vi") "vi_regs")
    (RA (dev ->> "vi" ->> "regs") 0xffff 0);
  A (MM_AI_REGS K) 0xffff M64P_MEM_AI (RW (dev ->> "ai") "ai_regs")
    (RA (dev ->> "ai" ->> "regs") 0xffff 0);
  A (MM_PI_REGS K) 0xffff M64P_MEM_PI (RW (dev ->> "pi") "pi_regs")
    (RA (dev ->> "pi" ->> "regs") 0xffff 0);
  A (MM_RI_REGS K) 0xffff M64P_MEM_RI (RW (dev ->> "ri") "ri_regs")
    (RA (dev ->> "ri" ->> "regs") 0xffff 0);
  A (MM_SI_REGS K) 0xffff M64P_MEM_SI (RW (dev ->> "si") "si_regs")
    (RA (dev ->> "si" ->> "regs") 0xffff 0);
  A (MM_DOM2_ADDR1 K) 0xffffff M64P_MEM_NOTHING (RW NULL "open_bus")
    (RA NULL 0xffffff 0);
  A (MM_DD_ROM K) 0x1ffffff M64P_MEM_NOTHING (RW NULL "open_bus")
    (RA NULL 0x1ffffff 0);
  A (MM_DOM2_ADDR2 K) 0x1ffff M64P_MEM_FLASHRAMSTAT (RW (dev ->> "cart") "cart_dom2")
    (RA NULL 0x1ffff 0);
  A (MM_IS_VIEWER K) 0xfff M64P_MEM_NOTHING (RW (dev ->> "is") "is_viewer")
    (RA NULL 0xfff 0);
  A (MM_CART_ROM K) (size_t (rom_size cfg - 1)) M64P_MEM_ROM
    (RW (dev ->> "cart" ->> "cart_rom") "cart_rom")
    (RA NULL (size_t (rom_size cfg - 1)) (RETRO_MEMDESC_CONST K));
  A (MM_PIF_MEM K) 0xffff M64P_MEM_PIF (RW (dev ->> "pif") "pif_mem")
    (RA NULL 0xffff 0)
].

Definition dd_regs_mapping (dev : pointer) : mem_mapping :=
  A (MM_DOM2_ADDR1 K) 0xffffff M64P_MEM_DDREG (RW (dev ->> "dd") "dd_regs")
    (RA NULL 0xffffff 0).

Definition dd_rom_mapping (cfg : config) (dev : pointer) : mem_mapping :=
  A (MM_DD_ROM K) (size_t (dd_rom_size cfg - 1)) M64P_MEM_DDROM
    (RW (dev ->> "dd") "dd_rom")
    (RA NULL (size_t (dd_rom_size cfg - 1)) (RETRO_MEMDESC_CONST K)).

(** [mappings] as it stands after the [if (dd_rom_size > 0)] block. *)
Definition mappings (cfg : config) (dev : pointer) : list mem_mapping :=
  if 0 <? dd_rom_size cfg then
    <[15%nat := dd_rom_mapping cfg dev]>
      (<[14%nat := dd_regs_mapping dev]> (initial_mappings cfg dev))
  else initial_mappings cfg dev.

(** [media] and [rom_base]; ['C'] is 67. *)
Definition media (cfg : config) (s : memory) : Z :=
  u8 (ints s (Offset (MemBase (base cfg) (MM_CART_ROM K)) (Z.lxor 0x3b (S8 K)))).

Definition rom_base (cfg : config) (s : memory) : Z :=
  if (rom_size cfg =? 0) || ((0 <? dd_rom_size cfg) && negb (media cfg s =? 67))
  then MM_DD_ROM K
  else MM_CART_ROM K.

Definition init_device (cfg : config) (dev : pointer) (w : world) : option world :=
  (* init and map DD if present *)
  let w :=
    if 0 <? dd_rom_size cfg then
      invoke "init_dd"
        [A_ptr (dev ->> "dd");
         A_name "dd_rtc_clock"; A_name "dd_rtc_iclock";
         A_ptr (MemBase (base cfg) (MM_DD_ROM K)); A_int (dd_rom_size cfg);
         A_name "dd_disk"; A_name "dd_idisk";
         A_ptr (dev ->> "r4300")] w
    else w in
  let dbg_handler := RW (dev ->> "r4300") "with_bp_checks" in
  let w := invoke "init_memory"
    [A_ptr (dev ->> "mem"); A_mappings (mappings cfg dev);
     A_int (Z.of_nat (length (mappings cfg dev))); A_ptr (base cfg);
     A_mem_handler dbg_handler] w in
  let w := invoke "init_rdram"
    [A_ptr (dev ->> "rdram"); A_ptr (MemBase (base cfg) (MM_RDRAM_DRAM K));
     A_int (dram_size cfg); A_ptr (dev ->> "r4300")] w in
  let w := invoke "init_r4300"
    [A_ptr (dev ->> "r4300"); A_ptr (dev ->> "mem"); A_ptr (dev ->> "mi");
     A_ptr (dev ->> "rdram"); A_interrupt_handlers (interrupt_handlers dev);
     A_name "emumode"; A_name "count_per_op"; A_name "count_per_op_denom_pot";
     A_name "no_compiled_jump"; A_name "randomize_interrupt";
     A_name "start_address"] w in
  let w := invoke "init_rdp"
    [A_ptr (dev ->> "dp"); A_ptr (dev ->> "sp"); A_ptr (dev ->> "mi");
     A_ptr (dev ->> "mem"); A_ptr (dev ->> "rdram"); A_ptr (dev ->> "r4300")] w in
  let w := invoke "init_rsp"
    [A_ptr (dev ->> "sp"); A_ptr (MemBase (base cfg) (MM_RSP_MEM K));
     A_ptr (dev ->> "mi"); A_ptr (dev ->> "dp"); A_ptr (dev ->> "ri")] w in
  let w := invoke "init_ai"
    [A_ptr (dev ->> "ai"); A_ptr (dev ->> "mi"); A_ptr (dev ->> "ri");
     A_ptr (dev ->> "vi"); A_name "aout"; A_name "iaout";
     A_name "dma_modifier"] w in
  let w := invoke "init_mi" [A_ptr (dev ->> "mi"); A_ptr (dev ->> "r4300")] w in
  let w := invoke "init_pi"
    [A_ptr (dev ->> "pi"); A_ptr (Func "get_pi_dma_handler");
     A_ptr (dev ->> "cart"); A_ptr (dev ->> "dd");
     A_ptr (dev ->> "mi"); A_ptr (dev ->> "ri"); A_ptr (dev ->> "dp")] w in
  let w := invoke "init_ri" [A_ptr (dev ->> "ri"); A_ptr (dev ->> "rdram")] w in
  let w := invoke "init_si"
    [A_ptr (dev ->> "si"); A_name "si_dma_duration"; A_ptr (dev ->> "mi");
     A_ptr (dev ->> "pif"); A_ptr (dev ->> "ri")] w in
  let w := invoke "init_vi"
    [A_ptr (dev ->> "vi"); A_name "vi_clock"; A_name "expected_refresh_rate";
     A_ptr (dev ->> "mi"); A_ptr (dev ->> "dp")] w in
  (* use CART unless DD is plugged and the plugged CART is not a combo media
     (cart+disk), or rom_size is 0 meaning there's no CART loaded *)
  let rom_base := rom_base cfg (mem w) in
  let w := invoke "init_pif"
    [A_ptr (dev ->> "pif"); A_ptr (MemBase (base cfg) (MM_PIF_MEM K));
     A_name "jbds"; A_name "ijbds";
     A_ptr (Offset (MemBase (base cfg) rom_base) 0x40);
     A_ptr (dev ->> "r4300"); A_ptr (dev ->> "si")] w in
  let w := invoke "init_cart"
    [A_ptr (dev ->> "cart"); A_name "af_rtc_clock"; A_name "iaf_rtc_clock";
     A_ptr (MemBase (base cfg) (MM_CART_ROM K)); A_int (rom_size cfg);
     A_ptr (dev ->> "r4300"); A_ptr (dev ->> "pi");
     A_name "eeprom_type"; A_name "eeprom_storage"; A_name "ieeprom_storage";
     A_name "flashram_type"; A_name "flashram_storage"; A_name "iflashram_storage";
     A_ptr (ptrs (mem w) (dev ->> "rdram" ->> "dram"));
     A_name "sram_storage"; A_name "isram_storage"] w in
  setup_retroarch_memory_map (mappings cfg dev) dev w.

(** ** Lifecycle *)

(** The body of the loop over the controller channels. *)
Definition poweron_channel (dev : pointer) (w : world) (i : nat) : world :=
  let channel := Index (dev ->> "pif" ->> "channels") i in
  let ijbd := ptrs (mem w) (channel ->> "ijbd") in
  if decide (ijbd ≠ NULL) then
    if decide (ptrs (mem w) (ijbd ->> "poweron") ≠ NULL) then
      invoke_ptr (ptrs (mem w) (ijbd ->> "poweron"))
        [A_ptr (ptrs (mem w) (channel ->> "jbd"))] w
    else w
  else w.

Definition poweron_device (dev : pointer) (w : world) : world :=
  let w := invoke "poweron_rdram" [A_ptr (dev ->> "rdram")] w in
  let w := invoke "poweron_r4300" [A_ptr (dev ->> "r4300")] w in
  let w := invoke "poweron_rdp" [A_ptr (dev ->> "dp")] w in
  let w := invoke "poweron_rsp" [A_ptr (dev ->> "sp")] w in
  let w := invoke "poweron_ai" [A_ptr (dev ->> "ai")] w in
  let w := invoke "poweron_mi" [A_ptr (dev ->> "mi")] w in
  let w := invoke "poweron_pi" [A_ptr (dev ->> "pi")] w in
  let w := invoke "poweron_ri" [A_ptr (dev ->> "ri")] w in
  let w := invoke "poweron_si" [A_ptr (dev ->> "si")] w in
  let w := invoke "poweron_vi" [A_ptr (dev ->> "vi")] w in
  let w := invoke "poweron_pif" [A_ptr (dev ->> "pif")] w in
  let w := invoke "poweron_cart" [A_ptr (dev ->> "cart")] w in
  let w := invoke "poweron_is_viewer" [A_ptr (dev ->> "is")] w in
  (* poweron for controllers *)
  let w := foldl (poweron_channel dev) w (seq 0 (GAME_CONTROLLERS_COUNT K)) in
  if decide (ptrs (mem w) (dev ->> "dd" ->> "rom") ≠ NULL) then
    invoke "poweron_dd" [A_ptr (dev ->> "dd")] w
  else w.

Definition run_device (dev : pointer) (w : world) : world :=
  (* device execution is driven by the r4300 *)
  invoke "run_r4300" [A_ptr (dev ->> "r4300")] w.

Definition stop_device (dev : pointer) (w : world) : world :=
  (* set stop flag so that r4300 execution will be stopped at next interrupt *)
  {| mem := store_int (r4300_stop (dev ->> "r4300")) 1 (mem w);
     trace := trace w |}.

Definition hard_reset_device (dev : pointer) (w : world) : world :=
  (* set reset hard flag so reset_hard will be called at next interrupt *)
  {| mem := store_int (dev ->> "r4300" ->> "reset_hard_job") 1 (mem w);
     trace := trace w |}.

(** Modelled from the spec: [add_interrupt_event] (interrupt.c is not among
    the sources) enqueues one event of the given kind, at the given
    virtual-time offset, on the event scheduler of [cp0], and does nothing
    else. *)
Definition add_interrupt_event (cp0 : pointer) (type delay : Z) (w : world) : world :=
  {| mem := enqueue cp0 (type, delay) (mem w); trace := trace w |}.

Definition soft_reset_device (dev : pointer) (w : world) : world :=
  (* schedule HW2 interrupt now and an NMI after 1/2 seconds *)
  let w := add_interrupt_event (dev ->> "r4300" ->> "cp0") (HW2_INT K) 0 w in
  let w := add_interrupt_event (dev ->> "r4300" ->> "cp0") (NMI_INT K) 50000000 w in
  w.

End Device.

(** ** Notions the statements use *)

(** The four static handlers [h] of [get_pi_dma_handler]. *)
Definition cart_dom3_dma : pi_dma_handler :=
  {| dma_read := "cart_dom3_dma_read"; dma_write := "cart_dom3_dma_write" |}.
Definition cart_rom_dma : pi_dma_handler :=
  {| dma_read := "cart_rom_dma_read"; dma_write := "cart_rom_dma_write" |}.
Definition cart_dom2_dma : pi_dma_handler :=
  {| dma_read := "cart_dom2_dma_read"; dma_write := "cart_dom2_dma_write" |}.
Definition dd_dom_dma : pi_dma_handler :=
  {| dma_read := "dd_dom_dma_read"; dma_write := "dd_dom_dma_write" |}.

(** The order of the four thresholds, as the comments of the resolver
    give it. *)
Definition bands_ordered (K : constants) : Prop :=
  MM_DOM2_ADDR1 K < MM_DOM2_ADDR2 K
  ∧ MM_DOM2_ADDR2 K < MM_CART_ROM K
  ∧ MM_CART_ROM K < MM_CART_DOM3 K.

(** A descriptor with the four common fields set in a zeroed slot. *)
Definition region (p : pointer) (start len flags : Z) : retro_memory_descriptor :=
  {| d_ptr := p; d_start := start; d_len := len; d_flags := flags;
     d_select := 0; d_disconnect := 0 |}.

(** The descriptors one iteration of the export loop leaves behind, in
    order. *)
Definition exported (K : constants) (s : memory) (dev : pointer)
    (mapping : mem_mapping) : list retro_memory_descriptor :=
  let ra := retroarch_mapping mapping in
  let kseg1_start := Z.lor (R4300_KSEG1 K) (m_begin mapping) in
  match m_type mapping with
  | M64P_MEM_RDRAM =>
      [ {| d_ptr := ptrs s (dev ->> "rdram" ->> "dram");
           d_start := Z.lor (R4300_KSEG0 K) (m_begin mapping);
           d_len := ra_len ra; d_flags := ra_flags ra;
           d_select := 0x20000000; d_disconnect := 0xC0000000 |};
        region (ptrs s (dev ->> "rdram" ->> "dram")) kseg1_start
          (ra_len ra) (ra_flags ra) ]
  | M64P_MEM_RSPMEM =>
      [ region (ptrs s (dev ->> "sp" ->> "mem")) kseg1_start (ra_len ra) (ra_flags ra) ]
  | M64P_MEM_FLASHRAMSTAT =>
      [ region (if decide (ints s (dev ->> "cart" ->> "use_flashram") = -1)
                then dev ->> "cart" ->> "sram"
                else dev ->> "cart" ->> "flashram")
          kseg1_start (ra_len ra) (ra_flags ra) ]
  | M64P_MEM_ROM =>
      [ region (ptrs s (dev ->> "cart" ->> "cart_rom" ->> "rom")) kseg1_start
          (ra_len ra) (ra_flags ra) ]
  | M64P_MEM_DDREG =>
      [ region (dev ->> "dd" ->> "regs") kseg1_start (ra_len ra) (ra_flags ra) ]
  | M64P_MEM_DDROM =>
      [ region (ptrs s (dev ->> "dd" ->> "rom")) kseg1_start (ra_len ra) (ra_flags ra) ]
  | M64P_MEM_PIF =>
      [ region (ptrs s (dev ->> "pif" ->> "base")) kseg1_start
          (PIF_ROM_SIZE K) (RETRO_MEMDESC_CONST K);
        region (ptrs s (dev ->> "pif" ->> "ram"))
          (Z.lor (R4300_KSEG1 K) (u32 (m_begin mapping + PIF_ROM_SIZE K)))
          (PIF_RAM_SIZE K) 0 ]
  | _ =>
      if decide (ra_ptr ra ≠ NULL)
      then [ region (ra_ptr ra) kseg1_start (ra_len ra) (ra_flags ra) ]
      else []
  end.

Definition exported_all (K : constants) (s : memory) (dev : pointer)
    (mappings : list mem_mapping) : list retro_memory_descriptor :=
  mappings ≫= exported K s dev.

(** The table fits the array [descs[mappings_count + 2]]. *)
Definition fits (K : constants) (s : memory) (dev : pointer)
    (mappings : list mem_mapping) : Prop :=
  (length (exported_all K s dev mappings) ≤ length mappings + 2)%nat.

(** The calls a step added to the trace. *)
Definition calls_since (w w' : world) : list call :=
  drop (length (trace w)) (trace w').

Definition called (f : string) (t : list call) : Prop :=
  Direct f ∈ fn <$> t.

(** The store after a sequence of calls, and a step of the program that
    does nothing but make the calls [l]. *)
Definition replay (extern : call → memory → memory) (l : list call)
    (s : memory) : memory :=
  foldl (λ s c, extern c s) s l.

Definition runs (extern : call → memory → memory) (l : list call)
    (w w' : world) : Prop :=
  trace w' = trace w ++ l ∧ mem w' = replay extern l (mem w).

(** Three of the calls of [init_device]. *)
Definition init_dd_call (K : constants) (cfg : config) (dev : pointer) : call :=
  {| fn := Direct "init_dd";
     args := [A_ptr (dev ->> "dd");
              A_name "dd_rtc_clock"; A_name "dd_rtc_iclock";
              A_ptr (MemBase (base cfg) (MM_DD_ROM K)); A_int (dd_rom_size cfg);
              A_name "dd_disk"; A_name "dd_idisk";
              A_ptr (dev ->> "r4300")] |}.

Definition init_memory_call (K : constants) (cfg : config) (dev : pointer) : call :=
  {| fn := Direct "init_memory";
     args := [A_ptr (dev ->> "mem"); A_mappings (mappings K cfg dev);
              A_int 20; A_ptr (base cfg);
              A_mem_handler (RW (dev ->> "r4300") "with_bp_checks")] |}.

Definition init_pi_call (dev : pointer) : call :=
  {| fn := Direct "init_pi";
     args := [A_ptr (dev ->> "pi"); A_ptr (Func "get_pi_dma_handler");
              A_ptr (dev ->> "cart"); A_ptr (dev ->> "dd");
              A_ptr (dev ->> "mi"); A_ptr (dev ->> "ri"); A_ptr (dev ->> "dp")] |}.

Definition init_pif_call (K : constants) (cfg : config) (dev : pointer)
    (rom_base : Z) : call :=
  {| fn := Direct "init_pif";
     args := [A_ptr (dev ->> "pif"); A_ptr (MemBase (base cfg) (MM_PIF_MEM K));
              A_name "jbds"; A_name "ijbds";
              A_ptr (Offset (MemBase (base cfg) rom_base) 0x40);
              A_ptr (dev ->> "r4300"); A_ptr (dev ->> "si")] |}.

Definition poweron_dd_call (dev : pointer) : call :=
  {| fn := Direct "poweron_dd"; args := [A_ptr (dev ->> "dd")] |}.

(** A call that is neither of the two entry points of the disk drive. *)
Definition not_dd (c : call) : Prop :=
  fn c ≠ Direct "init_dd" ∧ fn c ≠ Direct "poweron_dd".

(** The callees of [init_device] after the optional [init_dd], in order. *)
Definition init_callees : list callee :=
  Direct <$> ["init_memory"; "init_rdram"; "init_r4300"; "init_rdp"; "init_rsp";
              "init_ai"; "init_mi"; "init_pi"; "init_ri"; "init_si"; "init_vi";
              "init_pif"; "init_cart"; "environ_cb"].

(** The interrupt tables handed to [init_r4300]. *)
Definition table_of (a : arg) : list (list interrupt_handler) :=
  match a with
  | A_interrupt_handlers hs => [hs]
  | _ => []
  end.

Definition registered_interrupt_handlers (t : list call) : list (list interrupt_handler) :=
  c ← filter (λ c, fn c = Direct "init_r4300") t; args c ≫= table_of.

(** A store of zeroes, collaborators without effect, and two
    configurations: a cartridge alone, and nothing plugged at all. *)
Definition zero_memory : memory :=
  {| ints := λ _, 0; ptrs := λ _, NULL; queue := λ _, [] |}.

Definition zero_world : world := {| mem := zero_memory; trace := [] |}.

Definition no_effect (c : call) (s : memory) : memory := s.

Definition cart_only : config :=
  {| base := Obj "base"; dram_size := 0x800000; rom_size := 0x1000000;
     dd_rom_size := 0 |}.

Definition nothing_plugged : config :=
  {| base := Obj "base"; dram_size := 0x800000; rom_size := 0;
     dd_rom_size := 0 |}.

(** The same configuration with the disk taken out. *)
Definition without_disk (cfg : config) : config :=
  {| base := base cfg; dram_size := dram_size cfg; rom_size := rom_size cfg;
     dd_rom_size := 0 |}.

(** A store whose cartridge area carries the combo-media tag ['C']. *)
Definition combo_tagged : memory :=
  store_int (Offset (MemBase (Obj "base") 0x10000000) 0x38) 67 zero_memory.

Definition cart_and_disk : config :=
  {| base := Obj "base"; dram_size := 0x800000; rom_size := 0x1000000;
     dd_rom_size := 0x400000 |}.

(** The addresses of the mapping table are 32-bit values. *)
Definition table_addresses (K : constants) : list Z :=
  [MM_RDRAM_DRAM K; MM_RDRAM_REGS K; MM_RSP_MEM K; MM_RSP_REGS K;
   MM_RSP_REGS2 K; MM_DPC_REGS K; MM_DPS_REGS K; MM_MI_REGS K; MM_VI_REGS K;
   MM_AI_REGS K; MM_PI_REGS K; MM_RI_REGS K; MM_SI_REGS K; MM_DOM2_ADDR1 K;
   MM_DD_ROM K; MM_DOM2_ADDR2 K; MM_IS_VIEWER K; MM_CART_ROM K; MM_PIF_MEM K].

Definition addresses_u32 (K : constants) : Prop :=
  Forall is_u32 (table_addresses K).

(** A mapping the exporter turns into two descriptors, and one it turns
    into a descriptor whatever its [ptr] field. *)
Definition exported_twice (m : mem_mapping) : Prop :=
  m_type m = M64P_MEM_RDRAM ∨ m_type m = M64P_MEM_PIF.

Definition exported_specially (m : mem_mapping) : Prop :=
  m_type m ∈ [M64P_MEM_RDRAM; M64P_MEM_RSPMEM; M64P_MEM_FLASHRAMSTAT;
              M64P_MEM_ROM; M64P_MEM_DDREG; M64P_MEM_DDROM; M64P_MEM_PIF].

#[global] Instance exported_twice_dec m : Decision (exported_twice m).
Proof. unfold exported_twice. apply _. Defined.

(** A table with three RDRAM regions. *)
Definition three_rdram : list mem_mapping :=
  replicate 3 (A 0 0x3efffff M64P_MEM_RDRAM (RW (Obj "dev" ->> "rdram") "rdram_dram")
                 (RA NULL 0x800000 4)).

(** A table with one RDRAM region and two PIF regions. *)
Definition one_rdram_two_pif : list mem_mapping :=
  [ A 0 0x3efffff M64P_MEM_RDRAM (RW (Obj "dev" ->> "rdram") "rdram_dram")
      (RA NULL 0x800000 4);
    A 0x1fc00000 0xffff M64P_MEM_PIF (RW (Obj "dev" ->> "pif") "pif_mem")
      (RA NULL 0xffff 0);
    A 0x1fc00000 0xffff M64P_MEM_PIF (RW (Obj "dev" ->> "pif") "pif_mem")
      (RA NULL 0xffff 0) ].

(** The call by which the exporter hands a table over, given the store it
    reads the pointers from. *)
Definition environ_call (K : constants) (s : memory) (dev : pointer)
    (mappings : list mem_mapping) : call :=
  {| fn := Direct "environ_cb";
     args := [A_name "RETRO_ENVIRONMENT_SET_MEMORY_MAPS";
              A_retromap
                (exported_all K s dev mappings
                   ++ replicate (length mappings + 2
                                 - length (exported_all K s dev mappings))
                        zero_desc)
                (length (exported_all K s dev mappings))] |}.

(** The thirteen fixed callees of [poweron_device], in order, and the call
    the loop makes for one controller channel. *)
Definition poweron_callees : list callee :=
  Direct <$> ["poweron_rdram"; "poweron_r4300"; "poweron_rdp"; "poweron_rsp";
              "poweron_ai"; "poweron_mi"; "poweron_pi"; "poweron_ri";
              "poweron_si"; "poweron_vi"; "poweron_pif"; "poweron_cart";
              "poweron_is_viewer"].

Definition channel_calls (dev : pointer) (s : memory) (i : nat) : list call :=
  let channel := Index (dev ->> "pif" ->> "channels") i in
  let ijbd := ptrs s (channel ->> "ijbd") in
  if decide (ijbd ≠ NULL ∧ ptrs s (ijbd ->> "poweron") ≠ NULL)
  then [{| fn := Indirect (ptrs s (ijbd ->> "poweron"));
           args := [A_ptr (ptrs s (channel ->> "jbd"))] |}]
  else [].

Definition is_indirect (c : call) : Prop := ∃ p, fn c = Indirect p.

(** Two worlds with the same cells, queues and calls. *)
Definition same_world (w1 w2 : world) : Prop :=
  (∀ l, ints (mem w1) l = ints (mem w2) l)
  ∧ (∀ l, ptrs (mem w1) l = ptrs (mem w2) l)
  ∧ (∀ l, queue (mem w1) l = queue (mem w2) l)
  ∧ trace w1 = trace w2.

(** A store with one controller plugged in port 1, and a disk drive whose
    ROM pointer is set. *)
Definition one_pad : memory :=
  {| ints := λ _, 0;
     ptrs := λ l,
       if decide (l = Index (Obj "dev" ->> "pif" ->> "channels") 1 ->> "ijbd")
       then Obj "pad_interface"
       else if decide (l = Obj "pad_interface" ->> "poweron")
       then Func "poweron_pad"
       else if decide (l = Index (Obj "dev" ->> "pif" ->> "channels") 1 ->> "jbd")
       then Obj "pad"
       else if decide (l = Obj "dev" ->> "dd" ->> "rom")
       then MemBase (Obj "base") 0x06000000
       else NULL;
     queue := λ _, [] |}.

(** * The frontend: file manager and gamepad

    The functions of the SDL frontend that do not draw.  C strings are
    lists of characters, without their terminator; the directory stream
    and the state of the controller are given by the caller. *)

Module Frontend.

Definition MAX_PATH_LENGTH : nat := 1024.
Definition MAX_FILES : nat := 512.
Definition PATH_SEPARATOR : ascii := "/"%char.

Definition cstring : Type := list ascii.

(** A string literal. *)
Definition lit (s : string) : cstring := list_ascii_of_string s.

(** A character as the [unsigned char] the C library compares. *)
Definition byte (a : ascii) : Z := Z.of_nat (nat_of_ascii a).

(** [tolower] of the C locale. *)
Definition tolower (a : ascii) : ascii :=
  if (65 <=? byte a) && (byte a <=? 90)
  then ascii_of_nat (nat_of_ascii a + 32)
  else a.

Fixpoint strcmp (s1 s2 : cstring) : Z :=
  match s1, s2 with
  | [], [] => 0
  | [], c2 :: _ => 0 - byte c2
  | c1 :: _, [] => byte c1
  | c1 :: s1, c2 :: s2 =>
      if decide (c1 = c2) then strcmp s1 s2 else byte c1 - byte c2
  end.

Fixpoint strcasecmp (s1 s2 : cstring) : Z :=
  match s1, s2 with
  | [], [] => 0
  | [], c2 :: _ => 0 - byte (tolower c2)
  | c1 :: _, [] => byte (tolower c1)
  | c1 :: s1, c2 :: s2 =>
      if decide (tolower c1 = tolower c2) then strcasecmp s1 s2
      else byte (tolower c1) - byte (tolower c2)
  end.

(** [strrchr]: the position of the last occurrence, if any. *)
Fixpoint strrchr (s : cstring) (ch : ascii) : option nat :=
  match s with
  | [] => None
  | c :: s =>
      match strrchr s ch with
      | Some i => Some (S i)
      | None => if decide (c = ch) then Some 0%nat else None
      end
  end.

Definition is_rom_file (filename : cstring) : bool :=
  let len := length filename in
  if (len <? 4)%nat then false
  else
    let ext := drop (len - 4) filename in
    (strcasecmp ext (lit ".z64") =? 0) || (strcasecmp ext (lit ".n64") =? 0).

(** ** The file manager *)

Record FileEntry : Type := {
  name : cstring;
  is_directory : Z;
  size : Z
}.

Record FileManager : Type := {
  current_path : cstring;
  files : list FileEntry;      (* the array of [MAX_FILES] entries *)
  file_count : nat;
  selected_index : Z;
  scroll_offset : Z;
  visible_items : Z
}.

(** What [stat] yields for the path built for an entry, and an entry of the
    directory stream. *)
Record stat_t : Type := {
  st_isdir : bool;             (* [S_ISDIR(st.st_mode)] *)
  st_size : Z
}.

Record dirent : Type := {
  d_name : cstring;
  d_stat : option stat_t       (* [None] when [stat] fails *)
}.

(** The entry the [readdir] loop fills in for an element of the stream:
    [strncpy] keeps the first 255 characters of the name. *)
Definition entry_of (ent : dirent) : FileEntry :=
  match d_stat ent with
  | Some st =>
      {| name := take 255 (d_name ent);
         is_directory := if st_isdir st then 1 else 0;
         size := if st_isdir st then 0 else st_size st |}
  | None =>
      {| name := take 255 (d_name ent); is_directory := 0; size := 0 |}
  end.

(** The body of the loop for an element that is not ["."]. *)
Definition read_entry (fm : FileManager) (ent : dirent) : FileManager :=
  {| current_path := current_path fm;
     files := <[file_count fm := entry_of ent]> (files fm);
     file_count := S (file_count fm);
     selected_index := selected_index fm;
     scroll_offset := scroll_offset fm;
     visible_items := visible_items fm |}.

Fixpoint read_entries (dir : list dirent) (fm : FileManager) : FileManager :=
  match dir with
  | [] => fm
  | ent :: dir =>
      if (file_count fm <? MAX_FILES)%nat then
        if decide (strcmp (d_name ent) (lit ".") = 0) then read_entries dir fm
        else read_entries dir (read_entry fm ent)
      else fm
  end.

(** The test of the sort: entry [a], standing before [b], must go after. *)
Definition out_of_order (a b : FileEntry) : bool :=
  (is_directory a <? is_directory b)
  || ((is_directory a =? is_directory b) && (0 <? strcmp (name a) (name b))).

Definition swap_if_out_of_order (i j : nat) (l : list FileEntry) : list FileEntry :=
  match l !! i, l !! j with
  | Some a, Some b =>
      if out_of_order a b then <[j := a]> (<[i := b]> l) else l
  | _, _ => l
  end.

(** The inner loop, [j] from [i + 1] below [n], and the outer one, [i] from
    0 below [n - 1]. *)
Definition sort_from (n i : nat) (l : list FileEntry) : list FileEntry :=
  foldl (λ l j, swap_if_out_of_order i j l) l (seq (S i) (n - S i)).

Definition sort_entries (n : nat) (l : list FileEntry) : list FileEntry :=
  foldl (λ l i, sort_from n i l) l (seq 0 (n - 1)).

(** [list_directory], the POSIX branch; [opendir] gives the stream of a
    path, or [None] when it cannot be opened. *)
Definition list_directory (opendir : cstring → option (list dirent))
    (fm : FileManager) : FileManager :=
  let fm :=
    {| current_path := current_path fm; files := files fm; file_count := 0;
       selected_index := selected_index fm; scroll_offset := scroll_offset fm;
       visible_items := visible_items fm |} in
  match opendir (current_path fm) with
  | None => fm
  | Some dir =>
      let fm := read_entries dir fm in
      (* Sort: directories first, then files *)
      {| current_path := current_path fm;
         files := sort_entries (file_count fm) (files fm);
         file_count := file_count fm;
         selected_index := selected_index fm;
         scroll_offset := scroll_offset fm;
         visible_items := visible_items fm |}
  end.

Definition set_path (p : cstring) (fm : FileManager) : FileManager :=
  {| current_path := p; files := files fm; file_count := file_count fm;
     selected_index := selected_index fm; scroll_offset := scroll_offset fm;
     visible_items := visible_items fm |}.

Definition change_directory (opendir : cstring → option (list dirent))
    (fm : FileManager) (dir : cstring) : FileManager :=
  let fm :=
    if decide (strcmp dir (lit "..") = 0) then
      match strrchr (current_path fm) PATH_SEPARATOR with
      | Some last_sep =>
          if decide (last_sep ≠ 0%nat)
          then set_path (take last_sep (current_path fm)) fm
          else fm
      | None => fm
      end
    else
      (* snprintf into new_path[MAX_PATH_LENGTH], then strncpy *)
      let new_path :=
        take (MAX_PATH_LENGTH - 1)
          (current_path fm ++ [PATH_SEPARATOR] ++ dir) in
      set_path (take (MAX_PATH_LENGTH - 1) new_path) fm in
  let fm := list_directory opendir fm in
  {| current_path := current_path fm; files := files fm;
     file_count := file_count fm;
     selected_index := 0; scroll_offset := 0;
     visible_items := visible_items fm |}.

(** The entries a listing shows, the elements of a stream the loop does
    not skip, and a list in the order of the sort. *)
Definition listed (fm : FileManager) : list FileEntry :=
  take (file_count fm) (files fm).

Definition kept (dir : list dirent) : list dirent :=
  filter (λ ent, strcmp (d_name ent) (lit ".") ≠ 0) dir.

Definition in_order (l : list FileEntry) : Prop :=
  ∀ (i j : nat) a b, (i < j)%nat → l !! i = Some a → l !! j = Some b →
    out_of_order a b = false.

(** A C string holds no zero character. *)
Definition c_string (s : cstring) : Prop := "000"%char ∉ s.

(** A file manager as [run_file_manager] sets it up, and a directory. *)
Definition fresh (path : cstring) : FileManager :=
  {| current_path := path;
     files := replicate MAX_FILES {| name := []; is_directory := 0; size := 0 |};
     file_count := 0; selected_index := 0; scroll_offset := 0;
     visible_items := 15 |}.

Definition roms_dir : list dirent :=
  [ {| d_name := lit "."; d_stat := Some {| st_isdir := true; st_size := 4096 |} |};
    {| d_name := lit "zelda.z64"; d_stat := Some {| st_isdir := false; st_size := 33554432 |} |};
    {| d_name := lit ".."; d_stat := Some {| st_isdir := true; st_size := 4096 |} |};
    {| d_name := lit "mario.N64"; d_stat := Some {| st_isdir := false; st_size := 8388608 |} |};
    {| d_name := lit "saves"; d_stat := Some {| st_isdir := true; st_size := 4096 |} |};
    {| d_name := lit "notes.txt"; d_stat := None |} ].

(** ** The gamepad *)

Record GamepadState : Type := {
  controller : pointer;
  button_states : list Z;        (* [SDL_CONTROLLER_BUTTON_MAX] entries *)
  prev_button_states : list Z;
  repeat_timer : Z;
  repeat_delay : Z;
  dpad_up_held : Z;
  dpad_down_held : Z
}.

(** [update_gamepad]; [button_max] is [SDL_CONTROLLER_BUTTON_MAX] and
    [get_button] what [SDL_GameControllerGetButton] answers at this
    moment. *)
Definition update_gamepad (button_max : nat) (get_button : pointer → nat → Z)
    (gp : GamepadState) : GamepadState :=
  if decide (controller gp = NULL) then gp
  else
    let prev :=
      foldl (λ prev i,
               match button_states gp !! i with
               | Some v => <[i := v]> prev
               | None => prev
               end)
        (prev_button_states gp) (seq 0 button_max) in
    let states :=
      foldl (λ states i, <[i := get_button (controller gp) i]> states)
        (button_states gp) (seq 0 button_max) in
    {| controller := controller gp;
       button_states := states;
       prev_button_states := prev;
       repeat_timer := repeat_timer gp;
       repeat_delay := repeat_delay gp;
       dpad_up_held := dpad_up_held gp;
       dpad_down_held := dpad_down_held gp |}.

(** [button_pressed]; an index outside the arrays has no defined result. *)
Definition button_pressed (gp : GamepadState) (button : nat) : option Z :=
  state ← button_states gp !! button;
  prev ← prev_button_states gp !! button;
  Some (if negb (state =? 0) && (prev =? 0) then 1 else 0).

(** A pad with three buttons, the first held down since the last update,
    and a reading with the first two down. *)
Definition held_pad : GamepadState :=
  {| controller := Obj "pad"; button_states := [1; 0; 0];
     prev_button_states := [0; 0; 0]; repeat_timer := 0; repeat_delay := 150;
     dpad_up_held := 0; dpad_down_held := 0 |}.

Definition two_down (_ : pointer) (button : nat) : Z :=
  if (button <? 2)%nat then 1 else 0.

(** ** The core's variables

    The cases [RETRO_ENVIRONMENT_SET_VARIABLES] and
    [RETRO_ENVIRONMENT_GET_VARIABLE] of [core_environment].  An array of
    variables, closed by an entry without key, is the list of the entries
    before it; a [NULL] string is [None]; [g_vars] is [None] until the core
    sets its variables.  Allocation is taken to succeed. *)

Record retro_variable : Type := {
  key : cstring;
  value : option cstring
}.

(** [isspace] of the C locale. *)
Definition isspace (a : ascii) : bool :=
  (byte a =? 32) || ((9 <=? byte a) && (byte a <=? 13)).

(** [strchr]: the position of the first occurrence, if any. *)
Fixpoint strchr (s : cstring) (ch : ascii) : option nat :=
  match s with
  | [] => None
  | c :: s => if decide (c = ch) then Some 0%nat else S <$> strchr s ch
  end.

(** How far the loop that skips the spaces after the semicolon moves. *)
Fixpoint spaces (s : cstring) : nat :=
  match s with
  | c :: s => if isspace c then S (spaces s) else 0%nat
  | [] => 0%nat
  end.

(** The value stored for a variable described by [v]: the text from the
    first character after the semicolon that is not a space, up to the
    first pipe of [v].  Without a semicolon, or with a pipe before that
    character, the code reads or copies outside the string: no value. *)
Definition default_value (v : cstring) : option cstring :=
  semicolon ← strchr v ";"%char;
  let first_pipe := strchr v "|"%char in
  let semicolon := S semicolon in
  let semicolon := (semicolon + spaces (drop semicolon v))%nat in
  match first_pipe with
  | Some first_pipe =>
      if decide (semicolon ≤ first_pipe)%nat
      then Some (take (first_pipe - semicolon) (drop semicolon v))
      else None
  | None => Some (drop semicolon v)
  end.

(** [RETRO_ENVIRONMENT_SET_VARIABLES]: the new [g_vars]. *)
Definition set_variables (vars : list retro_variable) : option (list retro_variable) :=
  mapM (λ invar,
          v ← value invar;
          d ← default_value v;
          Some {| key := key invar; value := Some d |}) vars.

(** The loop of [RETRO_ENVIRONMENT_GET_VARIABLE]. *)
Fixpoint find_variable (k : cstring) (vs : list retro_variable) : option retro_variable :=
  match vs with
  | [] => None
  | v :: vs => if decide (strcmp k (key v) = 0) then Some v else find_variable k vs
  end.

(** [RETRO_ENVIRONMENT_GET_VARIABLE]: the result and the variable of the
    caller. *)
Definition get_variable (g_vars : option (list retro_variable))
    (var : retro_variable) : bool * retro_variable :=
  match g_vars with
  | None => (false, var)
  | Some vs =>
      match find_variable (key var) vs with
      | Some v => (true, {| key := key var; value := value v |})
      | None => (true, var)
      end
  end.

(** Two variables as a core declares them. *)
Definition core_variables : list retro_variable :=
  [ {| key := lit "core-cpu";
       value := Some (lit "CPU Core; dynamic_recompiler|cached_interpreter|pure_interpreter") |};
    {| key := lit "core-aspect"; value := Some (lit "Aspect Ratio;   4:3") |} ].

End Frontend.

Ltac in_list :=
  repeat first [apply list_elem_of_here | apply list_elem_of_further].

(** * Properties *)

(** ** The export loop against the list of exported descriptors *)

Section ExportLoop.

Variable K : constants.
Variable s : memory.
Variable dev : pointer.

Implicit Types (written rest : list retro_memory_descriptor).

#[local] Arguments assign_region : simpl never.

Lemma assign_at written d rest f :
  assign (length written) f (written ++ d :: rest) = Some (written ++ f d :: rest).
Proof.
  unfold assign. rewrite decide_True.
  - f_equal. rewrite <- (Nat.add_0_r (length written)).
    by rewrite (alter_app_r f written (d :: rest) 0).
  - rewrite length_app. simpl. lia.
Qed.

Lemma assign_region_at p start len flags written rest n :
  n = length written →
  assign_region p start len flags (written ++ zero_desc :: rest, n)
  = Some (written ++ region p start len flags :: rest, S n).
Proof.
  intros ->. unfold assign_region. repeat (rewrite assign_at; simpl). done.
Qed.

Lemma assign_region_next p start len flags written d rest n :
  n = length written →
  assign_region p start len flags (written ++ d :: zero_desc :: rest, S n)
  = Some (written ++ d :: region p start len flags :: rest, S (S n)).
Proof.
  intros ->.
  change (written ++ d :: zero_desc :: rest)
    with (written ++ [d] ++ zero_desc :: rest).
  rewrite app_assoc, (assign_region_at _ _ _ _ (written ++ [d]) rest (S (length written))).
  - by rewrite <- app_assoc.
  - rewrite length_app. simpl. lia.
Qed.

(** One iteration writes the exported descriptors of its mapping into the
    free slots, provided there are enough of them. *)
Lemma export_mapping_fits mapping written k :
  (length (exported K s dev mapping) ≤ k)%nat →
  export_mapping K s dev mapping (written ++ replicate k zero_desc, length written)
  = Some (written ++ exported K s dev mapping
            ++ replicate (k - length (exported K s dev mapping)) zero_desc,
          (length written + length (exported K s dev mapping))%nat).
Proof.
  unfold export_mapping, exported.
  destruct (m_type mapping); simpl;
    try (case_decide; simpl);
    intros Hk;
    try (rewrite Nat.sub_0_r, Nat.add_0_r; reflexivity);
    (destruct k as [|k]; [simpl in Hk; lia|]); simpl;
    try (rewrite assign_region_at by done; rewrite Nat.sub_0_r, Nat.add_1_r;
         reflexivity).
  - (* RDRAM: two slots *)
    destruct k as [|k]; [lia|]. simpl.
    repeat (rewrite assign_at; simpl).
    rewrite assign_region_next by done.
    rewrite Nat.sub_0_r. do 2 f_equal. lia.
  - (* PIF: two slots *)
    destruct k as [|k]; [lia|]. simpl.
    rewrite assign_region_at by done. simpl.
    rewrite assign_region_next by done.
    rewrite Nat.sub_0_r. do 2 f_equal. lia.
Qed.

Lemma export_loop_fits mappings : ∀ written k,
  (length (exported_all K s dev mappings) ≤ k)%nat →
  export_loop K s dev mappings (written ++ replicate k zero_desc, length written)
  = Some (written ++ exported_all K s dev mappings
            ++ replicate (k - length (exported_all K s dev mappings)) zero_desc,
          (length written + length (exported_all K s dev mappings))%nat).
Proof.
  unfold exported_all.
  induction mappings as [|mapping rest IH]; intros written k.
  - intros _. simpl. by rewrite Nat.sub_0_r, Nat.add_0_r.
  - rewrite bind_cons, length_app. intros Hk. cbn [export_loop].
    rewrite export_mapping_fits by lia. cbn [mbind option_bind].
    rewrite app_assoc.
    replace (length written + length (exported K s dev mapping))%nat
      with (length (written ++ exported K s dev mapping))
      by (by rewrite length_app).
    rewrite IH by lia.
    rewrite length_app, <- !app_assoc.
    by rewrite Nat.sub_add_distr, Nat.add_assoc.
Qed.

End ExportLoop.

(** The exporter hands the exported descriptors, in table order, to the
    environment, with the unused slots of the array left zeroed. *)
Lemma setup_retroarch_memory_map_fits K extern mappings dev w :
  fits K (mem w) dev mappings →
  setup_retroarch_memory_map K extern mappings dev w
  = Some (invoke extern "environ_cb"
            [A_name "RETRO_ENVIRONMENT_SET_MEMORY_MAPS";
             A_retromap
               (exported_all K (mem w) dev mappings
                  ++ replicate (length mappings + 2
                                - length (exported_all K (mem w) dev mappings))
                       zero_desc)
               (length (exported_all K (mem w) dev mappings))] w).
Proof.
  intros Hfits. unfold setup_retroarch_memory_map.
  pose proof (export_loop_fits K (mem w) dev mappings [] _ Hfits) as H.
  simpl in H. rewrite H. reflexivity.
Qed.

(** ** The calls of a composition *)

Lemma trace_invoke extern f a w :
  trace (invoke extern f a w) = trace w ++ [{| fn := Direct f; args := a |}].
Proof. reflexivity. Qed.

Section Runs.

Variable extern : call → memory → memory.

Lemma runs_refl w : runs extern [] w w.
Proof. split; simpl; [by rewrite app_nil_r | done]. Qed.

Lemma runs_perform l c w w1 :
  runs extern l w w1 → runs extern (l ++ [c]) w (perform extern c w1).
Proof.
  intros [Ht Hm]. split; simpl.
  - by rewrite Ht, app_assoc.
  - unfold replay in *. by rewrite foldl_app, Hm.
Qed.

Lemma runs_invoke l f a w w1 :
  runs extern l w w1 →
  runs extern (l ++ [{| fn := Direct f; args := a |}]) w (invoke extern f a w1).
Proof. apply runs_perform. Qed.

Lemma runs_invoke_ptr l p a w w1 :
  runs extern l w w1 →
  runs extern (l ++ [{| fn := Indirect p; args := a |}]) w (invoke_ptr extern p a w1).
Proof. apply runs_perform. Qed.

Lemma runs_calls_since l w w' : runs extern l w w' → calls_since w w' = l.
Proof. intros [Ht _]. unfold calls_since. by rewrite Ht, drop_app_length. Qed.

(** A cell that every call of [l] leaves alone is the same after [l]. *)
Lemma replay_frame (P : call → Prop) (x : pointer) l : ∀ s,
  (∀ c s, P c → ptrs (extern c s) x = ptrs s x) →
  Forall P l →
  ptrs (replay extern l s) x = ptrs s x.
Proof.
  unfold replay. induction l as [|c l IH]; intros s Hframe Hl; simpl; [done|].
  inversion Hl; subst. rewrite IH by done. by apply Hframe.
Qed.

End Runs.

(** The table of [init_device] never overruns the array of the exporter:
    it exports 18 descriptors without a disk drive and 20 with one, into
    22 slots. *)
Lemma mappings_fit K cfg dev s : fits K s dev (mappings K cfg dev).
Proof.
  unfold fits, exported_all, mappings.
  destruct (0 <? dd_rom_size cfg); vm_compute; lia.
Qed.

Lemma length_mappings K cfg dev : length (mappings K cfg dev) = 20%nat.
Proof. unfold mappings. by destruct (0 <? dd_rom_size cfg). Qed.

(** [init_device] always completes, and does nothing but call its
    collaborators: [init_dd] when a disk is given, then the fourteen fixed
    callees in order. *)
Lemma init_device_runs K extern cfg dev w :
  ∃ w1 l,
    init_device K extern cfg dev w = Some w1
    ∧ runs extern l w w1
    ∧ l = (if 0 <? dd_rom_size cfg then [init_dd_call K cfg dev] else [])
          ++ drop (if 0 <? dd_rom_size cfg then 1%nat else 0%nat) l
    ∧ fn <$> drop (if 0 <? dd_rom_size cfg then 1%nat else 0%nat) l = init_callees
    ∧ registered_interrupt_handlers l = [interrupt_handlers dev]
    ∧ init_memory_call K cfg dev ∈ l
    ∧ init_pi_call dev ∈ l
    ∧ (∃ s, init_pif_call K cfg dev (rom_base K cfg s) ∈ l).
Proof.
  unfold init_device.
  rewrite setup_retroarch_memory_map_fits by apply mappings_fit.
  rewrite length_mappings.
  destruct (0 <? dd_rom_size cfg);
    (eexists; eexists; split; [reflexivity|]);
    (split; [repeat eapply runs_invoke; apply runs_refl|]);
    simpl; repeat split; try reflexivity; try (eexists; in_list); in_list.
Qed.

(** ** The open bus (C1) *)

Lemma low_half_bounds (address : Z) : 0 ≤ Z.land address 0xffff < 2 ^ 16.
Proof.
  change 0xffff with (Z.ones 16). rewrite Z.land_ones by lia.
  apply Z.mod_pos_bound. lia.
Qed.

Lemma lor_bounds (n a b : Z) :
  0 < n → 0 ≤ a < 2 ^ n → 0 ≤ b < 2 ^ n → 0 ≤ Z.lor a b < 2 ^ n.
Proof.
  intros Hn Ha Hb.
  assert (Hnonneg : 0 ≤ Z.lor a b) by (apply Z.lor_nonneg; lia).
  split; [done|].
  destruct (Z.eq_dec (Z.lor a b) 0) as [->|Hnz]; [lia|].
  apply Z.log2_lt_pow2; [lia|].
  rewrite Z.log2_lor by lia.
  apply Z.max_lub_lt.
  - destruct (Z.eq_dec a 0) as [->|Ha0]; [simpl; lia|].
    apply Z.log2_lt_pow2; lia.
  - destruct (Z.eq_dec b 0) as [->|Hb0]; [simpl; lia|].
    apply Z.log2_lt_pow2; lia.
Qed.

(** C1. Whatever the address, [read_open_bus] yields the low 16 bits of the
    address in both halves of the word, that is
    [(addr & 0xFFFF) | ((addr & 0xFFFF) << 16)], a value of 32 bits whose
    halves both read [addr & 0xFFFF]; [write_open_bus] leaves the whole
    state as it was for every address, value and mask.  These are the
    handlers of the catch-all first entry of the mapping table, which spans
    the whole address space. *)
Theorem open_bus_read_write (K : constants) (cfg : config)
    (dev opaque : pointer) (address value mask : Z) (w : world) :
  read_open_bus opaque address
    = Z.lor (Z.land address 0xFFFF) (Z.shiftl (Z.land address 0xFFFF) 16)
  ∧ is_u32 (read_open_bus opaque address)
  ∧ Z.land (read_open_bus opaque address) 0xFFFF = Z.land address 0xFFFF
  ∧ Z.shiftr (read_open_bus opaque address) 16 = Z.land address 0xFFFF
  ∧ write_open_bus opaque address value mask w = w
  ∧ mappings K cfg dev !! 0%nat
    = Some {| m_begin := 0; m_end := 0xffffffff; m_type := M64P_MEM_NOTHING;
              m_handler := {| opaque := NULL; read32 := "read_open_bus";
                              write32 := "write_open_bus" |};
              retroarch_mapping := RA NULL 0 0 |}.
Proof.
  pose proof (low_half_bounds address) as Hlow.
  assert (Hshift : 0 ≤ Z.shiftl (Z.land address 0xffff) 16 < 2 ^ 32).
  { rewrite Z.shiftl_mul_pow2 by lia. lia. }
  assert (Hread : read_open_bus opaque address
            = Z.lor (Z.land address 0xFFFF) (Z.shiftl (Z.land address 0xFFFF) 16)).
  { unfold read_open_bus, u32. by rewrite Z.mod_small. }
  rewrite Hread. split; [done|]. split; [|split; [|split; [|split; [done|]]]].
  - unfold is_u32. apply lor_bounds; lia.
  - change 0xFFFF with (Z.ones 16) at 3. rewrite Z.land_lor_distr_l.
    rewrite (Z.land_ones (Z.shiftl _ _)) by lia.
    rewrite Z.shiftl_mul_pow2 by lia. rewrite Z.mod_mul by lia.
    rewrite Z.lor_0_r. rewrite Z.land_ones by lia. apply Z.mod_small. lia.
  - rewrite Z.shiftr_lor, Z.shiftr_shiftl_l by lia.
    rewrite Z.sub_diag, Z.shiftl_0_r.
    rewrite Z.shiftr_div_pow2 by lia. rewrite Z.div_small by lia.
    apply Z.lor_0_l.
  - unfold mappings. by destruct (0 <? dd_rom_size cfg).
Qed.

(** ** The PI DMA handler resolver (C2, C10) *)

(** C2, as the code has it.  With the thresholds ordered as the comments
    give them, the resolver selects by descending bands: DOM3 and above the
    cartridge-DOM3 handler, else cart ROM and above the cartridge-ROM
    handler, else DOM2-addr2 and above the cartridge-DOM2 handler, else
    DOM2-addr1 and above the disk-drive handler; one byte below the DOM3
    threshold is cartridge ROM, the threshold itself DOM3.  The disk-drive
    band is there for every configuration: the composition hands the
    resolver and [&dev->dd] to [init_pi] whether or not a disk is given. *)
Theorem get_pi_dma_handler_bands (K : constants) (extern : call → memory → memory)
    (cfg : config) (dev cart dd : pointer) (address : Z) (out : dma_out)
    (w : world) :
  bands_ordered K →
  (MM_CART_DOM3 K ≤ address →
     get_pi_dma_handler K cart dd address out = (cart, Some cart_dom3_dma))
  ∧ (MM_CART_ROM K ≤ address < MM_CART_DOM3 K →
     get_pi_dma_handler K cart dd address out
       = (cart ->> "cart_rom", Some cart_rom_dma))
  ∧ (MM_DOM2_ADDR2 K ≤ address < MM_CART_ROM K →
     get_pi_dma_handler K cart dd address out = (cart, Some cart_dom2_dma))
  ∧ (MM_DOM2_ADDR1 K ≤ address < MM_DOM2_ADDR2 K →
     get_pi_dma_handler K cart dd address out = (dd, Some dd_dom_dma))
  ∧ get_pi_dma_handler K cart dd (MM_CART_DOM3 K - 1) out
      = (cart ->> "cart_rom", Some cart_rom_dma)
  ∧ get_pi_dma_handler K cart dd (MM_CART_DOM3 K) out
      = (cart, Some cart_dom3_dma)
  ∧ ∃ w1, init_device K extern cfg dev w = Some w1
          ∧ init_pi_call dev ∈ calls_since w w1.
Proof.
  intros (H1 & H2 & H3). unfold get_pi_dma_handler, RW_dma.
  repeat split; try intros Ha;
    repeat (case_match; try lia); try reflexivity.
  destruct (init_device_runs K extern cfg dev w)
    as (w1 & l & Hinit & Hruns & _ & _ & _ & _ & Hpi & _).
  exists w1. split; [done|]. by rewrite (runs_calls_since _ _ _ _ Hruns).
Qed.

Lemma get_pi_dma_handler_bands_witness :
  bands_ordered n64
  ∧ get_pi_dma_handler n64 (Obj "dev" ->> "cart") (Obj "dev" ->> "dd")
      0x05000400 (NULL, None)
    = (Obj "dev" ->> "dd", Some dd_dom_dma).
Proof.
  assert (H : bands_ordered n64) by (unfold bands_ordered; simpl; lia).
  split; [exact H|].
  apply (get_pi_dma_handler_bands n64 no_effect cart_and_disk (Obj "dev")
           (Obj "dev" ->> "cart") (Obj "dev" ->> "dd") 0x05000400 (NULL, None)
           zero_world H).
  simpl. lia.
Defined.

(** The claim C2 fails where it calls the disk-drive band unreachable
    without a disk drive: composed with a cartridge alone, [init_dd] is not
    called, yet the resolver given to [init_pi] answers an address of the
    DOM2-addr1 band with the disk-drive handler. *)
Lemma dd_band_resolves_without_disk :
  dd_rom_size cart_only = 0
  ∧ (∃ w1, init_device n64 no_effect cart_only (Obj "dev") zero_world = Some w1
           ∧ ¬ called "init_dd" (trace w1)
           ∧ init_pi_call (Obj "dev") ∈ trace w1)
  ∧ MM_DOM2_ADDR1 n64 ≤ 0x05000000 < MM_DOM2_ADDR2 n64
  ∧ get_pi_dma_handler n64 (Obj "dev" ->> "cart") (Obj "dev" ->> "dd")
      0x05000000 (NULL, None)
    = (Obj "dev" ->> "dd", Some dd_dom_dma)
  ∧ get_pi_dma_handler n64 (Obj "dev" ->> "cart") (Obj "dev" ->> "dd")
      0x05000000 (NULL, None)
    ≠ (NULL, None).
Proof.
  split; [reflexivity|]. split.
  - eexists. split; [vm_compute; reflexivity|]. split.
    + unfold called. simpl. apply (bool_decide_unpack _). by vm_compute.
    + simpl. in_list.
  - split; [simpl; lia|]. split; [reflexivity|]. discriminate.
Qed.

(** C10. The resolver is partial at its low end: below the DOM2-addr1
    threshold no branch is taken and both output parameters keep the values
    the caller passed in; at or above it a handler is always assigned. *)
Theorem get_pi_dma_handler_partial (K : constants) (cart dd : pointer)
    (address : Z) (out : dma_out) :
  bands_ordered K →
  (address < MM_DOM2_ADDR1 K → get_pi_dma_handler K cart dd address out = out)
  ∧ (MM_DOM2_ADDR1 K ≤ address →
     ∃ o h, get_pi_dma_handler K cart dd address out = (o, Some h)).
Proof.
  intros (H1 & H2 & H3). unfold get_pi_dma_handler, RW_dma.
  split; intros Ha; repeat (case_match; try lia); eauto.
Qed.

Lemma get_pi_dma_handler_partial_witness :
  bands_ordered n64
  ∧ get_pi_dma_handler n64 (Obj "cart") (Obj "dd") 0x04ffffff
      (Obj "caller", Some cart_rom_dma)
    = (Obj "caller", Some cart_rom_dma).
Proof.
  assert (H : bands_ordered n64) by (unfold bands_ordered; simpl; lia).
  split; [exact H|].
  apply (get_pi_dma_handler_partial n64 (Obj "cart") (Obj "dd") 0x04ffffff
           (Obj "caller", Some cart_rom_dma) H).
  simpl. lia.
Defined.

(** ** The mapping table (C3) *)

Lemma initial_mappings_no_dd K cfg dev m :
  m ∈ initial_mappings K cfg dev →
  m_type m ≠ M64P_MEM_DDREG ∧ m_type m ≠ M64P_MEM_DDROM.
Proof.
  unfold initial_mappings. intros Hin.
  repeat (apply elem_of_cons in Hin as [->|Hin]; [by split|]).
  by apply not_elem_of_nil in Hin.
Qed.

(** C3. The table built by composition always has twenty entries.  It holds
    a disk-drive register region and a disk-drive ROM region exactly when
    the disk-ROM size is nonzero, and then only in slots 14 and 15.  With a
    disk, slot 14 is the window at DOM2-addr1 served by [read_dd_regs] and
    [write_dd_regs] on [&dev->dd], and slot 15 the window of the disk ROM's
    size at the DD ROM base served by [read_dd_rom] and [write_dd_rom] on
    [&dev->dd]; without one, the two slots hold the open-bus window at
    DOM2-addr1 and the open-bus placeholder at the DD ROM base, served by
    [read_open_bus] and [write_open_bus] without context.  Every other slot
    is what it is in the table of the same configuration without a disk. *)
Theorem mappings_dd_substitution (K : constants) (cfg : config) (dev : pointer) :
  is_size_t (dd_rom_size cfg) →
  length (mappings K cfg dev) = 20%nat
  ∧ ((∃ m, m ∈ mappings K cfg dev ∧ m_type m = M64P_MEM_DDREG)
     ↔ dd_rom_size cfg ≠ 0)
  ∧ ((∃ m, m ∈ mappings K cfg dev ∧ m_type m = M64P_MEM_DDROM)
     ↔ dd_rom_size cfg ≠ 0)
  ∧ (dd_rom_size cfg ≠ 0 →
     mappings K cfg dev !! 14%nat
       = Some {| m_begin := MM_DOM2_ADDR1 K;
                 m_end := u32 (Z.lor (MM_DOM2_ADDR1 K) 0xffffff);
                 m_type := M64P_MEM_DDREG;
                 m_handler := {| opaque := dev ->> "dd";
                                 read32 := "read_dd_regs";
                                 write32 := "write_dd_regs" |};
                 retroarch_mapping := {| ra_ptr := NULL; ra_len := 0xffffff;
                                         ra_flags := 0 |} |}
     ∧ mappings K cfg dev !! 15%nat
       = Some {| m_begin := MM_DD_ROM K;
                 m_end := u32 (Z.lor (MM_DD_ROM K) (size_t (dd_rom_size cfg - 1)));
                 m_type := M64P_MEM_DDROM;
                 m_handler := {| opaque := dev ->> "dd";
                                 read32 := "read_dd_rom";
                                 write32 := "write_dd_rom" |};
                 retroarch_mapping := {| ra_ptr := NULL;
                                         ra_len := size_t (dd_rom_size cfg - 1);
                                         ra_flags := RETRO_MEMDESC_CONST K |} |})
  ∧ (dd_rom_size cfg = 0 →
     mappings K cfg dev !! 14%nat
       = Some {| m_begin := MM_DOM2_ADDR1 K;
                 m_end := u32 (Z.lor (MM_DOM2_ADDR1 K) 0xffffff);
                 m_type := M64P_MEM_NOTHING;
                 m_handler := {| opaque := NULL;
                                 read32 := "read_open_bus";
                                 write32 := "write_open_bus" |};
                 retroarch_mapping := {| ra_ptr := NULL; ra_len := 0xffffff;
                                         ra_flags := 0 |} |}
     ∧ mappings K cfg dev !! 15%nat
       = Some {| m_begin := MM_DD_ROM K;
                 m_end := u32 (Z.lor (MM_DD_ROM K) 0x1ffffff);
                 m_type := M64P_MEM_NOTHING;
                 m_handler := {| opaque := NULL;
                                 read32 := "read_open_bus";
                                 write32 := "write_open_bus" |};
                 retroarch_mapping := {| ra_ptr := NULL; ra_len := 0x1ffffff;
                                         ra_flags := 0 |} |})
  ∧ (∀ i : nat, i ≠ 14%nat → i ≠ 15%nat →
     mappings K cfg dev !! i = mappings K (without_disk cfg) dev !! i)
  ∧ (∀ (i : nat) m, mappings K cfg dev !! i = Some m →
     (m_type m = M64P_MEM_DDREG ↔ dd_rom_size cfg ≠ 0 ∧ i = 14%nat)
     ∧ (m_type m = M64P_MEM_DDROM ↔ dd_rom_size cfg ≠ 0 ∧ i = 15%nat)).
Proof.
  intros [Hlo Hhi]. split; [apply length_mappings|].
  assert (Hother : ∀ i : nat, i ≠ 14%nat → i ≠ 15%nat →
            mappings K cfg dev !! i = mappings K (without_disk cfg) dev !! i).
  { intros i H14 H15. unfold mappings.
    destruct (0 <? dd_rom_size cfg); [|reflexivity].
    rewrite !list_lookup_insert_ne by done. reflexivity. }
  assert (Hrest : ∀ (i : nat) m, i ≠ 14%nat → i ≠ 15%nat →
            mappings K cfg dev !! i = Some m →
            m_type m ≠ M64P_MEM_DDREG ∧ m_type m ≠ M64P_MEM_DDROM).
  { intros i m H14 H15 Hi. rewrite Hother in Hi by done.
    apply list_elem_of_lookup_2 in Hi.
    apply (initial_mappings_no_dd K (without_disk cfg) dev m Hi). }
  assert (Hwith : dd_rom_size cfg ≠ 0 →
            mappings K cfg dev !! 14%nat = Some (dd_regs_mapping K dev)
            ∧ mappings K cfg dev !! 15%nat = Some (dd_rom_mapping K cfg dev)).
  { intros Hdd. unfold mappings.
    assert ((0 <? dd_rom_size cfg) = true) as -> by (apply Z.ltb_lt; lia).
    split; reflexivity. }
  assert (Hwithout : dd_rom_size cfg = 0 →
            mappings K cfg dev !! 14%nat
              = Some (A (MM_DOM2_ADDR1 K) 0xffffff M64P_MEM_NOTHING
                        (RW NULL "open_bus") (RA NULL 0xffffff 0))
            ∧ mappings K cfg dev !! 15%nat
              = Some (A (MM_DD_ROM K) 0x1ffffff M64P_MEM_NOTHING
                        (RW NULL "open_bus") (RA NULL 0x1ffffff 0))).
  { intros Hdd. unfold mappings. rewrite Hdd. split; reflexivity. }
  assert (Htypes : ∀ (i : nat) m, mappings K cfg dev !! i = Some m →
            (m_type m = M64P_MEM_DDREG ↔ dd_rom_size cfg ≠ 0 ∧ i = 14%nat)
            ∧ (m_type m = M64P_MEM_DDROM ↔ dd_rom_size cfg ≠ 0 ∧ i = 15%nat)).
  { intros i m Hi.
    destruct (decide (i = 14%nat)) as [->|H14];
      [|destruct (decide (i = 15%nat)) as [->|H15]].
    - destruct (decide (dd_rom_size cfg = 0)) as [Hz|Hnz].
      + destruct (Hwithout Hz) as [E _]. rewrite E in Hi. injection Hi as <-.
        split; (split; [intros Ht; discriminate Ht | intros [? ?]; done]).
      + destruct (Hwith Hnz) as [E _]. rewrite E in Hi. injection Hi as <-.
        split; (split; [intros Ht; try discriminate Ht; done
                       | intros [? ?]; try done; lia]).
    - destruct (decide (dd_rom_size cfg = 0)) as [Hz|Hnz].
      + destruct (Hwithout Hz) as [_ E]. rewrite E in Hi. injection Hi as <-.
        split; (split; [intros Ht; discriminate Ht | intros [? ?]; done]).
      + destruct (Hwith Hnz) as [_ E]. rewrite E in Hi. injection Hi as <-.
        split; (split; [intros Ht; try discriminate Ht; done
                       | intros [? ?]; try done; lia]).
    - destruct (Hrest i m H14 H15 Hi).
      split; (split; [done | intros [? ?]; done]). }
  split; [|split; [|split; [|split; [|split; [exact Hother|exact Htypes]]]]].
  - split.
    + intros (m & Hin & Ht). apply list_elem_of_lookup in Hin as [i Hi].
      by apply (Htypes i m Hi) in Ht as [? _].
    + intros Hdd. exists (dd_regs_mapping K dev). split; [|reflexivity].
      apply (list_elem_of_lookup_2 _ 14). by apply Hwith.
  - split.
    + intros (m & Hin & Ht). apply list_elem_of_lookup in Hin as [i Hi].
      by apply (Htypes i m Hi) in Ht as [? _].
    + intros Hdd. exists (dd_rom_mapping K cfg dev). split; [|reflexivity].
      apply (list_elem_of_lookup_2 _ 15). by apply Hwith.
  - exact Hwith.
  - exact Hwithout.
Qed.

Lemma mappings_dd_substitution_witness :
  is_size_t (dd_rom_size cart_and_disk)
  ∧ mappings n64 cart_and_disk (Obj "dev") !! 14%nat
    = Some {| m_begin := 0x05000000; m_end := 0x05ffffff;
              m_type := M64P_MEM_DDREG;
              m_handler := {| opaque := Obj "dev" ->> "dd";
                              read32 := "read_dd_regs";
                              write32 := "write_dd_regs" |};
              retroarch_mapping := {| ra_ptr := NULL; ra_len := 0xffffff;
                                      ra_flags := 0 |} |}
  ∧ mappings n64 cart_and_disk (Obj "dev") !! 15%nat
    = Some {| m_begin := 0x06000000; m_end := 0x063fffff;
              m_type := M64P_MEM_DDROM;
              m_handler := {| opaque := Obj "dev" ->> "dd";
                              read32 := "read_dd_rom";
                              write32 := "write_dd_rom" |};
              retroarch_mapping := {| ra_ptr := NULL; ra_len := 0x3fffff;
                                      ra_flags := RETRO_MEMDESC_CONST n64 |} |}
  ∧ mappings n64 cart_and_disk (Obj "dev") !! 0%nat
    = mappings n64 (without_disk cart_and_disk) (Obj "dev") !! 0%nat.
Proof.
  assert (H : is_size_t (dd_rom_size cart_and_disk))
    by (unfold is_size_t; simpl; lia).
  destruct (mappings_dd_substitution n64 cart_and_disk (Obj "dev") H)
    as (_ & _ & _ & Hwith & _ & Hother & _).
  destruct Hwith as [H14 H15]; [simpl; lia|].
  split; [exact H|]. split; [exact H14|]. split; [exact H15|].
  apply Hother; lia.
Defined.

(** ** The boot vector (C5) *)

(** [rom_base] by cases, whatever the store the tag byte is read from. *)
Lemma rom_base_cases (K : constants) (cfg : config) (s : memory) :
  is_size_t (dd_rom_size cfg) →
  MM_DD_ROM K ≠ MM_CART_ROM K →
  (rom_base K cfg s = MM_DD_ROM K
   ↔ rom_size cfg = 0 ∨ (dd_rom_size cfg ≠ 0 ∧ media K cfg s ≠ 67))
  ∧ (rom_base K cfg s = MM_CART_ROM K
     ↔ rom_size cfg ≠ 0 ∧ (dd_rom_size cfg = 0 ∨ media K cfg s = 67)).
Proof.
  intros [Hlo Hhi] Hne. unfold rom_base. split.
  - destruct (rom_size cfg =? 0) eqn:Hrom; simpl.
    { apply Z.eqb_eq in Hrom. tauto. }
    apply Z.eqb_neq in Hrom.
    destruct (0 <? dd_rom_size cfg) eqn:Hdd; simpl.
    + apply Z.ltb_lt in Hdd.
      destruct (media K cfg s =? 67) eqn:Hm; simpl.
      * apply Z.eqb_eq in Hm. split; [congruence | tauto].
      * apply Z.eqb_neq in Hm. split; [intros _; right; split; [lia|done] | done].
    + apply Z.ltb_ge in Hdd. split; [congruence | intros [?|[? _]]; lia].
  - destruct (rom_size cfg =? 0) eqn:Hrom; simpl.
    { apply Z.eqb_eq in Hrom. split; [done | tauto]. }
    apply Z.eqb_neq in Hrom.
    destruct (0 <? dd_rom_size cfg) eqn:Hdd; simpl.
    + apply Z.ltb_lt in Hdd.
      destruct (media K cfg s =? 67) eqn:Hm; simpl.
      * apply Z.eqb_eq in Hm. tauto.
      * apply Z.eqb_neq in Hm. split; [done | intros [_ [?|?]]; [lia | done]].
    + apply Z.ltb_ge in Hdd. split; [intros _; split; [done | left; lia] | done].
Qed.

Lemma replay_no_effect (l : list call) (s : memory) : replay no_effect l s = s.
Proof. unfold replay. revert s. induction l as [|c l IH]; intros s; simpl; [done|apply IH]. Qed.

(** C5, as the code has it.  Composition calls [init_pif] once, after
    [init_dd] (when a disk is given) and the eleven callees from
    [init_memory] to [init_vi], and before [init_cart] and the export.  The
    boot code it hands over lies at offset 0x40 of the base [b] chosen
    there: with the media byte read at offset [0x3b ^ S8] of the cartridge
    area from the store as those preceding calls have left it, [b] is the
    DD ROM base exactly when the ROM size is zero (whether or not a disk
    image is given), or a disk image is given and that byte is not ['C'];
    it is the cartridge ROM base in every other configuration. *)
Theorem rom_base_selection (K : constants) (extern : call → memory → memory)
    (cfg : config) (dev : pointer) (w : world) :
  is_size_t (dd_rom_size cfg) →
  MM_DD_ROM K ≠ MM_CART_ROM K →
  ∃ w1 l rest b,
    init_device K extern cfg dev w = Some w1
    ∧ calls_since w w1
      = l ++ {| fn := Direct "init_pif";
                args := [A_ptr (dev ->> "pif");
                         A_ptr (MemBase (base cfg) (MM_PIF_MEM K));
                         A_name "jbds"; A_name "ijbds";
                         A_ptr (Offset (MemBase (base cfg) b) 0x40);
                         A_ptr (dev ->> "r4300"); A_ptr (dev ->> "si")] |}
          :: rest
    ∧ fn <$> l
      = (if 0 <? dd_rom_size cfg then [Direct "init_dd"] else [])
        ++ (Direct <$> ["init_memory"; "init_rdram"; "init_r4300"; "init_rdp";
                        "init_rsp"; "init_ai"; "init_mi"; "init_pi"; "init_ri";
                        "init_si"; "init_vi"])
    ∧ fn <$> rest = [Direct "init_cart"; Direct "environ_cb"]
    ∧ (b = MM_DD_ROM K
       ↔ rom_size cfg = 0
         ∨ (dd_rom_size cfg ≠ 0
            ∧ u8 (ints (replay extern l (mem w))
                    (Offset (MemBase (base cfg) (MM_CART_ROM K))
                       (Z.lxor 0x3b (S8 K)))) ≠ 67))
    ∧ (b = MM_CART_ROM K
       ↔ rom_size cfg ≠ 0
         ∧ (dd_rom_size cfg = 0
            ∨ u8 (ints (replay extern l (mem w))
                    (Offset (MemBase (base cfg) (MM_CART_ROM K))
                       (Z.lxor 0x3b (S8 K)))) = 67))
    ∧ b = rom_base K cfg (replay extern l (mem w)).
Proof.
  intros Hsz Hne.
  assert (Hstep : ∃ w1 l w0 a_cart a_env,
            init_device K extern cfg dev w = Some w1
            ∧ w1 = invoke extern "environ_cb" a_env
                     (invoke extern "init_cart" a_cart
                        (perform extern
                           (init_pif_call K cfg dev (rom_base K cfg (mem w0))) w0))
            ∧ runs extern l w w0
            ∧ fn <$> l
              = (if 0 <? dd_rom_size cfg then [Direct "init_dd"] else [])
                ++ (Direct <$> ["init_memory"; "init_rdram"; "init_r4300";
                                "init_rdp"; "init_rsp"; "init_ai"; "init_mi";
                                "init_pi"; "init_ri"; "init_si"; "init_vi"])).
  { unfold init_device.
    rewrite setup_retroarch_memory_map_fits by apply mappings_fit.
    destruct (0 <? dd_rom_size cfg);
      (eexists _, _, _, _, _; split; [reflexivity|]);
      (split; [reflexivity|]);
      (split; [repeat eapply runs_invoke; apply runs_refl | reflexivity]). }
  destruct Hstep as (w1 & l & w0 & a_cart & a_env & Hinit & -> & Hruns & Hl).
  pose proof (runs_invoke extern _ "environ_cb" a_env _ _
                (runs_invoke extern _ "init_cart" a_cart _ _
                   (runs_perform extern l
                      (init_pif_call K cfg dev (rom_base K cfg (mem w0)))
                      w w0 Hruns))) as Hruns1.
  destruct Hruns as [_ Hmem]. rewrite Hmem in *.
  destruct (rom_base_cases K cfg (replay extern l (mem w)) Hsz Hne)
    as [Hdd Hcart].
  eexists _, l, _, (rom_base K cfg (replay extern l (mem w))).
  split; [exact Hinit|].
  rewrite (runs_calls_since _ _ _ _ Hruns1).
  split; [by rewrite <- !app_assoc|].
  split; [exact Hl|]. split; [reflexivity|].
  split; [exact Hdd|]. split; [exact Hcart|reflexivity].
Qed.

Lemma rom_base_selection_witness :
  is_size_t (dd_rom_size cart_and_disk)
  ∧ MM_DD_ROM n64 ≠ MM_CART_ROM n64
  ∧ ∃ w1 l rest,
      init_device n64 no_effect cart_and_disk (Obj "dev")
        {| mem := combo_tagged; trace := [] |} = Some w1
      ∧ calls_since {| mem := combo_tagged; trace := [] |} w1
        = l ++ init_pif_call n64 cart_and_disk (Obj "dev") (MM_CART_ROM n64)
            :: rest.
Proof.
  assert (H : is_size_t (dd_rom_size cart_and_disk))
    by (unfold is_size_t; simpl; lia).
  assert (Hne : MM_DD_ROM n64 ≠ MM_CART_ROM n64) by (simpl; lia).
  split; [exact H|]. split; [exact Hne|].
  destruct (rom_base_selection n64 no_effect cart_and_disk (Obj "dev")
              {| mem := combo_tagged; trace := [] |} H Hne)
    as (w1 & l & rest & b & Hinit & Hcalls & _ & _ & _ & Hcart & _).
  exists w1, l, rest. split; [exact Hinit|].
  assert (Hb : b = MM_CART_ROM n64).
  { apply Hcart. split; [simpl; lia|]. right.
    rewrite replay_no_effect. by vm_compute. }
  rewrite Hb in Hcalls. exact Hcalls.
Defined.

(** The claim C5 fails with nothing plugged: no disk image is given, the
    byte at the tag offset even reads ['C'], and [rom_base] is the DD ROM
    base all the same, which is what [init_pif] receives. *)
Lemma rom_base_without_disk :
  dd_rom_size nothing_plugged = 0
  ∧ rom_size nothing_plugged = 0
  ∧ media n64 nothing_plugged combo_tagged = 67
  ∧ rom_base n64 nothing_plugged combo_tagged = MM_DD_ROM n64
  ∧ rom_base n64 nothing_plugged combo_tagged ≠ MM_CART_ROM n64
  ∧ ∃ w1, init_device n64 no_effect nothing_plugged (Obj "dev")
            {| mem := combo_tagged; trace := [] |} = Some w1
          ∧ init_pif_call n64 nothing_plugged (Obj "dev") (MM_DD_ROM n64)
              ∈ trace w1.
Proof.
  repeat (split; [by vm_compute|]).
  eexists. split; [vm_compute; reflexivity|]. simpl. in_list.
Qed.

(** ** Composition and power-on without a disk drive (C4) *)

Section PowerOn.

Variable K : constants.
Variable extern : call → memory → memory.
Variable dev : pointer.

Lemma poweron_channel_runs l w w0 i :
  runs extern l w w0 → Forall not_dd l →
  ∃ l', runs extern l' w (poweron_channel extern dev w0 i) ∧ Forall not_dd l'.
Proof.
  intros Hruns Hl. unfold poweron_channel.
  repeat case_decide; eauto.
  eexists. split; [by apply runs_invoke_ptr|].
  apply Forall_app. split; [done|]. by repeat constructor.
Qed.

Lemma poweron_channels_runs (channels : list nat) : ∀ l w w0,
  runs extern l w w0 → Forall not_dd l →
  ∃ l', runs extern l' w (foldl (poweron_channel extern dev) w0 channels)
        ∧ Forall not_dd l'.
Proof.
  induction channels as [|i channels IH]; intros l w w0 Hruns Hl; simpl.
  - eauto.
  - destruct (poweron_channel_runs l w w0 i Hruns Hl) as (l' & Hruns' & Hl').
    eauto.
Qed.

(** Power-on makes calls that are not the disk drive's, and then calls
    [poweron_dd] exactly when [dev->dd.rom] is not null at that point. *)
Lemma poweron_device_runs w :
  ∃ l, Forall not_dd l
       ∧ runs extern
           (l ++ if decide (ptrs (replay extern l (mem w)) (dev ->> "dd" ->> "rom") ≠ NULL)
                 then [poweron_dd_call dev] else [])
           w (poweron_device K extern dev w).
Proof.
  unfold poweron_device.
  match goal with
  | |- context [foldl _ ?w13 _] =>
      assert (H13 : ∃ l, runs extern l w w13 ∧ Forall not_dd l)
  end.
  { eexists. split; [repeat eapply runs_invoke; apply runs_refl|].
    simpl. by repeat constructor. }
  destruct H13 as (l13 & Hruns13 & Hl13).
  destruct (poweron_channels_runs (seq 0 (GAME_CONTROLLERS_COUNT K))
              l13 w _ Hruns13 Hl13) as (l & Hruns & Hl).
  exists l. split; [done|].
  pose proof Hruns as [_ Hmem]. rewrite <- Hmem.
  case_decide.
  - by apply runs_invoke.
  - by rewrite app_nil_r.
Qed.

End PowerOn.

Lemma init_callees_not_dd (l : list call) :
  fn <$> l = init_callees → Forall not_dd l.
Proof.
  intros Hl. apply Forall_forall. intros c Hc.
  apply (list_elem_of_fmap_2 fn) in Hc. rewrite Hl in Hc.
  unfold not_dd, init_callees in *. simpl in Hc.
  repeat (apply elem_of_cons in Hc as [->|Hc]; [by split|]).
  by apply not_elem_of_nil in Hc.
Qed.

(** C4, as the code has it.  Without a disk image, composition completes
    without calling [init_dd]; if no other routine writes [dev->dd.rom] and
    that pointer was null beforehand, it is still null afterwards and
    power-on does not call [poweron_dd].  The interrupt table handed to
    [init_r4300] is the fixed one of sixteen entries all the same, the three
    disk-drive handlers included. *)
Theorem init_device_without_disk (K : constants) (extern : call → memory → memory)
    (cfg : config) (dev : pointer) (w : world) :
  dd_rom_size cfg = 0 →
  (∀ c s, fn c ≠ Direct "init_dd" →
     ptrs (extern c s) (dev ->> "dd" ->> "rom") = ptrs s (dev ->> "dd" ->> "rom")) →
  ptrs (mem w) (dev ->> "dd" ->> "rom") = NULL →
  ∃ w1, init_device K extern cfg dev w = Some w1
    ∧ ¬ called "init_dd" (calls_since w w1)
    ∧ ptrs (mem w1) (dev ->> "dd" ->> "rom") = NULL
    ∧ ¬ called "poweron_dd" (calls_since w1 (poweron_device K extern dev w1))
    ∧ registered_interrupt_handlers (calls_since w w1) = [interrupt_handlers dev]
    ∧ length (interrupt_handlers dev) = 16%nat
    ∧ IH (dev ->> "dd") "dd_mecha_int_handler" ∈ interrupt_handlers dev
    ∧ IH (dev ->> "dd") "dd_bm_int_handler" ∈ interrupt_handlers dev
    ∧ IH (dev ->> "dd") "dd_dv_int_handler" ∈ interrupt_handlers dev.
Proof.
  intros Hdd Hframe Hnull.
  destruct (init_device_runs K extern cfg dev w)
    as (w1 & l & Hinit & Hruns & _ & Hfn & Hreg & _).
  rewrite Hdd in Hfn. simpl in Hfn. rewrite drop_0 in Hfn.
  pose proof (init_callees_not_dd l Hfn) as Hl.
  assert (Hframe' : ∀ c s, not_dd c →
            ptrs (extern c s) (dev ->> "dd" ->> "rom")
            = ptrs s (dev ->> "dd" ->> "rom")).
  { intros c s [Hc _]. by apply Hframe. }
  assert (Hnull1 : ptrs (mem w1) (dev ->> "dd" ->> "rom") = NULL).
  { destruct Hruns as [_ ->]. by rewrite (replay_frame extern not_dd). }
  exists w1. rewrite (runs_calls_since _ _ _ _ Hruns).
  split; [done|]. split; [|split; [done|split; [|split; [done|]]]].
  - unfold called. intros Hc. apply list_elem_of_fmap in Hc as (c & Hfc & Hc).
    rewrite Forall_forall in Hl. destruct (Hl c Hc) as [Hne _]. by apply Hne.
  - destruct (poweron_device_runs K extern dev w1) as (l' & Hl' & Hruns').
    rewrite (runs_calls_since _ _ _ _ Hruns').
    rewrite (replay_frame extern not_dd) by done.
    rewrite decide_False by (by intros ?). rewrite app_nil_r.
    unfold called. intros Hc. apply list_elem_of_fmap in Hc as (c & Hfc & Hc).
    rewrite Forall_forall in Hl'. destruct (Hl' c Hc) as [_ Hne]. by apply Hne.
  - split; [reflexivity|]. unfold interrupt_handlers. repeat split; in_list.
Qed.

Lemma init_device_without_disk_witness :
  dd_rom_size cart_only = 0
  ∧ ∃ w1, init_device n64 no_effect cart_only (Obj "dev") zero_world = Some w1
          ∧ ¬ called "poweron_dd"
                (calls_since w1 (poweron_device n64 no_effect (Obj "dev") w1)).
Proof.
  split; [reflexivity|].
  destruct (init_device_without_disk n64 no_effect cart_only (Obj "dev") zero_world)
    as (w1 & Hinit & _ & _ & Hpoweron & _).
  - reflexivity.
  - reflexivity.
  - reflexivity.
  - exists w1. split; [exact Hinit | exact Hpoweron].
Defined.

(** The claim C4 fails on the interrupt table: composed with a cartridge
    alone, the table handed to [init_r4300] still routes the three
    disk-drive events to [&dev->dd]. *)
Lemma dd_handlers_registered_without_disk :
  dd_rom_size cart_only = 0
  ∧ ∃ w1, init_device n64 no_effect cart_only (Obj "dev") zero_world = Some w1
          ∧ registered_interrupt_handlers (trace w1)
            = [interrupt_handlers (Obj "dev")]
          ∧ IH (Obj "dev" ->> "dd") "dd_mecha_int_handler"
              ∈ interrupt_handlers (Obj "dev")
          ∧ IH (Obj "dev" ->> "dd") "dd_bm_int_handler"
              ∈ interrupt_handlers (Obj "dev")
          ∧ IH (Obj "dev" ->> "dd") "dd_dv_int_handler"
              ∈ interrupt_handlers (Obj "dev").
Proof.
  split; [reflexivity|].
  eexists. split; [vm_compute; reflexivity|].
  split; [by vm_compute|]. unfold interrupt_handlers. repeat split; in_list.
Qed.

(** ** The exported descriptors (C6, C7) *)

Lemma exported_all_split K s dev (mappings : list mem_mapping) (i : nat) m :
  mappings !! i = Some m →
  exported_all K s dev mappings
  = exported_all K s dev (take i mappings) ++ exported K s dev m
      ++ exported_all K s dev (drop (S i) mappings).
Proof.
  intros Hi. unfold exported_all.
  rewrite <- (take_drop_middle mappings i m Hi) at 1.
  by rewrite bind_app, bind_cons.
Qed.

Lemma exported_prefix (l : list retro_memory_descriptor) (k : nat) :
  take (length l) (l ++ replicate k zero_desc) = l.
Proof. by rewrite take_app_length. Qed.

(** C6. The descriptor exported for the save-media (flashram-status) region
    is a single one; its backing pointer is the flash buffer exactly when
    the save-type selector [use_flashram] is not -1 and the SRAM buffer
    exactly when it is -1, and the two buffers are distinct, so never
    both. *)
Theorem save_media_export (K : constants) (extern : call → memory → memory)
    (mappings : list mem_mapping) (dev : pointer) (w : world)
    (i : nat) (m : mem_mapping) :
  mappings !! i = Some m →
  m_type m = M64P_MEM_FLASHRAMSTAT →
  fits K (mem w) dev mappings →
  ∃ descs n p,
    setup_retroarch_memory_map K extern mappings dev w
    = Some (invoke extern "environ_cb"
              [A_name "RETRO_ENVIRONMENT_SET_MEMORY_MAPS"; A_retromap descs n] w)
    ∧ take n descs
      = exported_all K (mem w) dev (take i mappings)
        ++ [region p (Z.lor (R4300_KSEG1 K) (m_begin m))
              (ra_len (retroarch_mapping m)) (ra_flags (retroarch_mapping m))]
        ++ exported_all K (mem w) dev (drop (S i) mappings)
    ∧ (p = dev ->> "cart" ->> "flashram"
       ↔ ints (mem w) (dev ->> "cart" ->> "use_flashram") ≠ -1)
    ∧ (p = dev ->> "cart" ->> "sram"
       ↔ ints (mem w) (dev ->> "cart" ->> "use_flashram") = -1)
    ∧ dev ->> "cart" ->> "sram" ≠ dev ->> "cart" ->> "flashram".
Proof.
  intros Hi Ht Hfits.
  eexists _, _,
    (if decide (ints (mem w) (dev ->> "cart" ->> "use_flashram") = -1)
     then dev ->> "cart" ->> "sram" else dev ->> "cart" ->> "flashram").
  split; [by apply setup_retroarch_memory_map_fits|].
  split.
  - rewrite exported_prefix, (exported_all_split _ _ _ _ i m Hi).
    unfold exported at 1. by rewrite Ht.
  - case_decide; repeat split; try done; try congruence.
Qed.

Lemma save_media_export_witness :
  mappings n64 cart_only (Obj "dev") !! 16%nat
    = Some (A (MM_DOM2_ADDR2 n64) 0x1ffff M64P_MEM_FLASHRAMSTAT
              (RW (Obj "dev" ->> "cart") "cart_dom2") (RA NULL 0x1ffff 0))
  ∧ fits n64 (mem zero_world) (Obj "dev") (mappings n64 cart_only (Obj "dev"))
  ∧ ∃ descs n p,
      setup_retroarch_memory_map n64 no_effect
        (mappings n64 cart_only (Obj "dev")) (Obj "dev") zero_world
      = Some (invoke no_effect "environ_cb"
                [A_name "RETRO_ENVIRONMENT_SET_MEMORY_MAPS"; A_retromap descs n]
                zero_world)
      ∧ (p = Obj "dev" ->> "cart" ->> "flashram"
         ↔ ints (mem zero_world) (Obj "dev" ->> "cart" ->> "use_flashram") ≠ -1).
Proof.
  assert (Hfits : fits n64 (mem zero_world) (Obj "dev")
                    (mappings n64 cart_only (Obj "dev")))
    by apply mappings_fit.
  split; [reflexivity|]. split; [exact Hfits|].
  destruct (save_media_export n64 no_effect (mappings n64 cart_only (Obj "dev"))
              (Obj "dev") zero_world 16 _ eq_refl eq_refl Hfits)
    as (descs & n & p & Hsetup & _ & Hflash & _).
  exists descs, n, p. split; [exact Hsetup | exact Hflash].
Defined.

(** C7. For a table with one RDRAM region that fits the array, the export
    hands over exactly two descriptors for it, next to each other: one at
    the KSEG0 (cached) base with the select and disconnect masks, one at
    the KSEG1 (uncached) base without; both carry the one pointer
    [dev->rdram.dram].  All other descriptors come from mappings that are
    not RDRAM. *)
Theorem rdram_exported_twice (K : constants) (extern : call → memory → memory)
    (mappings : list mem_mapping) (dev : pointer) (w : world)
    (i : nat) (m : mem_mapping) :
  mappings !! i = Some m →
  m_type m = M64P_MEM_RDRAM →
  (∀ (j : nat) m', mappings !! j = Some m' → m_type m' = M64P_MEM_RDRAM → j = i) →
  fits K (mem w) dev mappings →
  ∃ descs n cached uncached,
    setup_retroarch_memory_map K extern mappings dev w
    = Some (invoke extern "environ_cb"
              [A_name "RETRO_ENVIRONMENT_SET_MEMORY_MAPS"; A_retromap descs n] w)
    ∧ take n descs
      = exported_all K (mem w) dev (take i mappings)
        ++ [cached; uncached]
        ++ exported_all K (mem w) dev (drop (S i) mappings)
    ∧ Forall (λ m', m_type m' ≠ M64P_MEM_RDRAM)
        (take i mappings ++ drop (S i) mappings)
    ∧ cached
      = {| d_ptr := ptrs (mem w) (dev ->> "rdram" ->> "dram");
           d_start := Z.lor (R4300_KSEG0 K) (m_begin m);
           d_len := ra_len (retroarch_mapping m);
           d_flags := ra_flags (retroarch_mapping m);
           d_select := 0x20000000; d_disconnect := 0xC0000000 |}
    ∧ uncached
      = {| d_ptr := ptrs (mem w) (dev ->> "rdram" ->> "dram");
           d_start := Z.lor (R4300_KSEG1 K) (m_begin m);
           d_len := ra_len (retroarch_mapping m);
           d_flags := ra_flags (retroarch_mapping m);
           d_select := 0; d_disconnect := 0 |}
    ∧ d_ptr cached = d_ptr uncached.
Proof.
  intros Hi Ht Huniq Hfits.
  eexists _, _, _, _.
  split; [by apply setup_retroarch_memory_map_fits|].
  split; [|split; [|split; [reflexivity|split; [reflexivity|reflexivity]]]].
  - rewrite exported_prefix, (exported_all_split _ _ _ _ i m Hi).
    unfold exported at 1. by rewrite Ht.
  - apply Forall_app. split; apply Forall_forall; intros m' Hm' Hrd.
    + apply list_elem_of_lookup in Hm' as [j Hj].
      apply lookup_take_Some in Hj as [Hj Hlt].
      specialize (Huniq j m' Hj Hrd). lia.
    + apply list_elem_of_lookup in Hm' as [j Hj].
      rewrite lookup_drop in Hj.
      specialize (Huniq _ m' Hj Hrd). lia.
Qed.

Lemma rdram_exported_twice_witness :
  fits n64 (mem zero_world) (Obj "dev") (mappings n64 cart_only (Obj "dev"))
  ∧ ∃ descs n cached uncached,
      setup_retroarch_memory_map n64 no_effect
        (mappings n64 cart_only (Obj "dev")) (Obj "dev") zero_world
      = Some (invoke no_effect "environ_cb"
                [A_name "RETRO_ENVIRONMENT_SET_MEMORY_MAPS"; A_retromap descs n]
                zero_world)
      ∧ descs !! 0%nat = Some cached
      ∧ descs !! 1%nat = Some uncached
      ∧ d_start cached = 0x80000000
      ∧ d_start uncached = 0xa0000000
      ∧ d_ptr cached = d_ptr uncached.
Proof.
  assert (Hfits : fits n64 (mem zero_world) (Obj "dev")
                    (mappings n64 cart_only (Obj "dev")))
    by apply mappings_fit.
  split; [exact Hfits|].
  destruct (rdram_exported_twice n64 no_effect (mappings n64 cart_only (Obj "dev"))
              (Obj "dev") zero_world 1 _ eq_refl eq_refl)
    as (descs & n & cached & uncached & Hsetup & Htake & _ & Hc & Hu & Hp);
    [|exact Hfits|].
  - intros j m' Hj Hrd.
    do 20 (destruct j as [|j]; [by (simplify_eq/=) || done|]).
    by simpl in Hj.
  - exists descs, n, cached, uncached.
    split; [exact Hsetup|].
    assert (Hd : ∀ k x, take n descs !! k = Some x → descs !! k = Some x).
    { intros k x Hk. by apply lookup_take_Some in Hk as [Hk _]. }
    split; [apply Hd; by rewrite Htake|].
    split; [apply Hd; by rewrite Htake|].
    split; [by rewrite Hc|]. split; [by rewrite Hu|]. exact Hp.
Defined.

(** The claim C7 fails for a table that overruns the array of the export:
    with one RDRAM region and two PIF regions the three mappings make six
    descriptors, the array has five slots, and the export has no result. *)
Lemma rdram_export_overruns :
  one_rdram_two_pif !! 0%nat
    = Some (A 0 0x3efffff M64P_MEM_RDRAM (RW (Obj "dev" ->> "rdram") "rdram_dram")
              (RA NULL 0x800000 4))
  ∧ (∀ (j : nat) m', one_rdram_two_pif !! j = Some m' →
       m_type m' = M64P_MEM_RDRAM → j = 0%nat)
  ∧ length one_rdram_two_pif = 3%nat
  ∧ length (exported_all n64 zero_memory (Obj "dev") one_rdram_two_pif) = 6%nat
  ∧ ¬ fits n64 (mem zero_world) (Obj "dev") one_rdram_two_pif
  ∧ setup_retroarch_memory_map n64 no_effect one_rdram_two_pif (Obj "dev")
      zero_world = None.
Proof.
  split; [reflexivity|]. split.
  { intros [|[|[|j]]] m' Hj Hrd; [done| | |done];
      simpl in Hj; injection Hj as <-; discriminate Hrd. }
  split; [reflexivity|]. split; [reflexivity|]. split.
  - unfold fits. vm_compute. lia.
  - by vm_compute.
Qed.

(** ** Reset and stop (C8, C9) *)

Lemma soft_reset_device_queue K dev w :
  queue (mem (soft_reset_device K dev w)) (dev ->> "r4300" ->> "cp0")
  = queue (mem w) (dev ->> "r4300" ->> "cp0")
      ++ [(HW2_INT K, 0); (NMI_INT K, 50000000)].
Proof.
  unfold soft_reset_device, add_interrupt_event, enqueue. simpl.
  rewrite !decide_True by done. by rewrite <- app_assoc.
Qed.

Lemma soft_reset_device_frame K dev w :
  ints (mem (soft_reset_device K dev w)) = ints (mem w)
  ∧ ptrs (mem (soft_reset_device K dev w)) = ptrs (mem w)
  ∧ trace (soft_reset_device K dev w) = trace w
  ∧ ∀ l, l ≠ dev ->> "r4300" ->> "cp0" →
         queue (mem (soft_reset_device K dev w)) l = queue (mem w) l.
Proof.
  repeat split. intros l Hl.
  unfold soft_reset_device, add_interrupt_event, enqueue. simpl.
  by rewrite !decide_False.
Qed.

(** C8. Every call of [soft_reset_device] appends two events to the
    scheduler of [dev->r4300.cp0], HW2 at offset 0 and then NMI at offset
    50,000,000, and changes nothing else: no integer or pointer cell, no
    other queue, no call.  After [n] calls the queue is longer by [2n]. *)
Theorem soft_reset_device_enqueues (K : constants) (dev : pointer) (w : world)
    (n : nat) :
  let cp0 := dev ->> "r4300" ->> "cp0" in
  let w' := Nat.iter n (soft_reset_device K dev) w in
  queue (mem (soft_reset_device K dev w)) cp0
    = queue (mem w) cp0 ++ [(HW2_INT K, 0); (NMI_INT K, 50000000)]
  ∧ queue (mem w') cp0
    = queue (mem w) cp0
        ++ mjoin (replicate n [(HW2_INT K, 0); (NMI_INT K, 50000000)])
  ∧ length (queue (mem w') cp0) = (length (queue (mem w) cp0) + 2 * n)%nat
  ∧ ints (mem w') = ints (mem w)
  ∧ ptrs (mem w') = ptrs (mem w)
  ∧ trace w' = trace w
  ∧ ∀ l, l ≠ cp0 → queue (mem w') l = queue (mem w) l.
Proof.
  intros cp0 w'. subst cp0 w'. split; [apply soft_reset_device_queue|].
  set (two := [(HW2_INT K, 0); (NMI_INT K, 50000000)]).
  assert (Hjoin : ∀ k, mjoin (replicate k two) ++ two = mjoin (replicate (S k) two)).
  { induction k as [|k IH]; [done|].
    change (mjoin (replicate (S k) two)) with (two ++ mjoin (replicate k two)).
    rewrite <- app_assoc, IH. reflexivity. }
  assert (Hq : queue (mem (Nat.iter n (soft_reset_device K dev) w))
                 (dev ->> "r4300" ->> "cp0")
               = queue (mem w) (dev ->> "r4300" ->> "cp0")
                   ++ mjoin (replicate n two)).
  { induction n as [|n IH].
    - simpl. by rewrite app_nil_r.
    - rewrite Nat.iter_succ, soft_reset_device_queue, IH. fold two.
      by rewrite <- app_assoc, Hjoin. }
  split; [exact Hq|]. split.
  { rewrite Hq, length_app. f_equal.
    clear Hq. induction n as [|n IH]; [done|].
    change (mjoin (replicate (S n) two)) with (two ++ mjoin (replicate n two)).
    rewrite length_app, IH. simpl. lia. }
  clear Hq. induction n as [|n IH]; [done|]. rewrite Nat.iter_succ.
  destruct IH as (Hi & Hp & Ht & Hl).
  destruct (soft_reset_device_frame K dev (Nat.iter n (soft_reset_device K dev) w))
    as (Hi' & Hp' & Ht' & Hl').
  repeat split; try congruence.
  intros l Hne. rewrite Hl' by done. by apply Hl.
Qed.

Lemma soft_reset_device_enqueues_witness :
  queue (mem (Nat.iter 2 (soft_reset_device n64 (Obj "dev")) zero_world))
    (Obj "dev" ->> "r4300" ->> "cp0")
  = [(0x200, 0); (0x400, 50000000); (0x200, 0); (0x400, 50000000)]
  ∧ queue (mem (Nat.iter 2 (soft_reset_device n64 (Obj "dev")) zero_world))
      (Obj "other") = [].
Proof.
  destruct (soft_reset_device_enqueues n64 (Obj "dev") zero_world 2)
    as (_ & Hq & _ & _ & _ & _ & Hother).
  split.
  - exact Hq.
  - apply Hother. discriminate.
Defined.

(** C9. [stop_device] and [hard_reset_device] are plain flag writes:
    the first sets the stop flag of the CPU core, the cell [r4300_stop]
    designates, to 1, the second sets [reset_hard_job] to 1; every other
    integer cell, every pointer cell and every scheduler queue is unchanged,
    and no call is made, so nothing is halted or reset within the call. *)
Theorem stop_and_hard_reset_set_flags (r4300_stop : pointer → pointer)
    (dev : pointer) (w : world) :
  let stop := r4300_stop (dev ->> "r4300") in
  let reset_hard_job := dev ->> "r4300" ->> "reset_hard_job" in
  (ints (mem (stop_device r4300_stop dev w)) stop = 1
   ∧ (∀ l, l ≠ stop → ints (mem (stop_device r4300_stop dev w)) l = ints (mem w) l)
   ∧ ptrs (mem (stop_device r4300_stop dev w)) = ptrs (mem w)
   ∧ queue (mem (stop_device r4300_stop dev w)) = queue (mem w)
   ∧ trace (stop_device r4300_stop dev w) = trace w)
  ∧ (ints (mem (hard_reset_device dev w)) reset_hard_job = 1
     ∧ (∀ l, l ≠ reset_hard_job →
          ints (mem (hard_reset_device dev w)) l = ints (mem w) l)
     ∧ ptrs (mem (hard_reset_device dev w)) = ptrs (mem w)
     ∧ queue (mem (hard_reset_device dev w)) = queue (mem w)
     ∧ trace (hard_reset_device dev w) = trace w).
Proof.
  intros stop reset_hard_job.
  unfold stop_device, hard_reset_device, store_int. simpl.
  repeat split; try (by rewrite decide_True);
    intros l Hl; by rewrite decide_False.
Qed.

Lemma stop_and_hard_reset_set_flags_witness :
  ints (mem (hard_reset_device (Obj "dev") zero_world))
    (Obj "dev" ->> "r4300" ->> "stop") = 0
  ∧ ints (mem (stop_device (λ r4300, r4300 ->> "stop") (Obj "dev") zero_world))
      (Obj "dev" ->> "r4300" ->> "reset_hard_job") = 0.
Proof.
  destruct (stop_and_hard_reset_set_flags (λ r4300, r4300 ->> "stop")
              (Obj "dev") zero_world)
    as ((_ & Hstop & _) & (_ & Hreset & _)).
  split.
  - rewrite Hreset; [reflexivity | discriminate].
  - rewrite Hstop; [reflexivity | discriminate].
Defined.

(** * Further properties of [device.c] *)

(** ** The open bus mirrors every 64 KiB *)

Lemma read_open_bus_low (opaque : pointer) (address : Z) :
  Z.land (read_open_bus opaque address) 0xffff = Z.land address 0xffff.
Proof.
  pose proof (low_half_bounds address) as Hlow.
  unfold read_open_bus, u32.
  rewrite Z.shiftl_mul_pow2 by lia.
  rewrite (Z.mod_small (_ * _)) by lia.
  change 0xffff with (Z.ones 16) at 3. rewrite Z.land_lor_distr_l.
  rewrite (Z.land_ones (_ * _)) by lia. rewrite Z.mod_mul by lia.
  rewrite Z.lor_0_r, Z.land_ones by lia. apply Z.mod_small. lia.
Qed.

(** The value read from the open bus depends on the low 16 bits of the
    address alone: it is the same 64 KiB apart, whatever the context
    pointer, and reading at the value just read gives that value again. *)
Theorem read_open_bus_mirrors (opaque opaque' : pointer) (address k : Z) :
  read_open_bus opaque (address + k * 0x10000) = read_open_bus opaque' address
  ∧ read_open_bus opaque (read_open_bus opaque' address)
    = read_open_bus opaque' address.
Proof.
  assert (Hlow : ∀ a b, Z.land a 0xffff = Z.land b 0xffff →
                 ∀ o o', read_open_bus o a = read_open_bus o' b).
  { intros a b Hab o o'. unfold read_open_bus. by rewrite Hab. }
  split.
  - apply Hlow. change 0xffff with (Z.ones 16). rewrite !Z.land_ones by lia.
    change 0x10000 with (2 ^ 16). by rewrite Z.mod_add by lia.
  - apply Hlow. apply read_open_bus_low.
Qed.

(** ** The ranges of the mapping table *)

Lemma lor_ge_l (x y : Z) : 0 ≤ y → x ≤ Z.lor x y.
Proof.
  intros Hy.
  assert (Hlor : Z.lor x y = Z.lor x (Z.ldiff y x)).
  { apply Z.bits_inj'. intros n Hn.
    rewrite !Z.lor_spec, Z.ldiff_spec.
    by destruct (Z.testbit x n), (Z.testbit y n). }
  assert (Hdisj : Z.land x (Z.ldiff y x) = 0).
  { rewrite Z.land_comm. apply Z.land_ldiff. }
  rewrite Hlor, <- (Z.lxor_lor _ _ Hdisj), <- (Z.add_nocarry_lxor _ _ Hdisj).
  assert (0 ≤ Z.ldiff y x) by (apply Z.ldiff_nonneg; lia). lia.
Qed.

Lemma u32_lor (x m : Z) : is_u32 x → u32 (Z.lor x m) = Z.lor x (u32 m).
Proof.
  intros Hx. unfold u32, is_u32 in *.
  rewrite <- !Z.land_ones by lia. rewrite Z.land_lor_distr_l.
  rewrite (Z.land_ones x) by lia. by rewrite (Z.mod_small x) by lia.
Qed.

Lemma A_range (x m : Z) t h ra :
  is_u32 x →
  0 ≤ m_begin (A x m t h ra) ≤ m_end (A x m t h ra)
  ∧ m_end (A x m t h ra) < 2 ^ 32.
Proof.
  intros Hx. simpl. rewrite u32_lor by done.
  assert (Hm : 0 ≤ u32 m < 2 ^ 32) by (apply Z.mod_pos_bound; lia).
  pose proof (lor_ge_l x (u32 m)). unfold is_u32 in Hx.
  pose proof (lor_bounds 32 x (u32 m)). lia.
Qed.

(** Whatever the configuration, a ROM size of zero included, every entry of
    the mapping table is a non-empty range of 32-bit addresses:
    [0 ≤ begin ≤ end < 2^32]. *)
Theorem mappings_ranges (K : constants) (cfg : config) (dev : pointer)
    (m : mem_mapping) :
  addresses_u32 K →
  m ∈ mappings K cfg dev →
  0 ≤ m_begin m ≤ m_end m ∧ m_end m < 2 ^ 32.
Proof.
  unfold addresses_u32, table_addresses. intros HK Hm.
  repeat (apply Forall_cons_1 in HK as [? HK]).
  assert (Hinit : ∀ m, m ∈ initial_mappings K cfg dev →
            0 ≤ m_begin m ≤ m_end m ∧ m_end m < 2 ^ 32).
  { clear m Hm. intros m Hm. unfold initial_mappings in Hm.
    apply elem_of_cons in Hm as [->|Hm]; [simpl; lia|].
    repeat (apply elem_of_cons in Hm as [->|Hm]; [by apply A_range|]).
    by apply not_elem_of_nil in Hm. }
  unfold mappings in Hm. destruct (0 <? dd_rom_size cfg); [|by apply Hinit].
  apply list_elem_of_lookup in Hm as [i Hi].
  destruct (decide (i = 15%nat)) as [->|Hne15].
  { rewrite list_lookup_insert_eq in Hi by (simpl; lia).
    injection Hi as <-. by apply A_range. }
  rewrite list_lookup_insert_ne in Hi by done.
  destruct (decide (i = 14%nat)) as [->|Hne14].
  { rewrite list_lookup_insert_eq in Hi by (simpl; lia).
    injection Hi as <-. by apply A_range. }
  rewrite list_lookup_insert_ne in Hi by done.
  apply Hinit. by apply list_elem_of_lookup_2 in Hi.
Qed.

Lemma n64_addresses_u32 : addresses_u32 n64.
Proof.
  unfold addresses_u32, table_addresses, is_u32. simpl.
  repeat constructor; lia.
Qed.

Lemma mappings_ranges_witness :
  addresses_u32 n64
  ∧ ∀ m, m ∈ mappings n64 nothing_plugged (Obj "dev") →
         0 ≤ m_begin m ≤ m_end m ∧ m_end m < 2 ^ 32.
Proof.
  split; [exact n64_addresses_u32|].
  intros m Hm.
  exact (mappings_ranges n64 nothing_plugged (Obj "dev") m n64_addresses_u32 Hm).
Defined.

Lemma lor_disjoint_add (x m : Z) : Z.land x m = 0 → Z.lor x m = x + m.
Proof.
  intros H. by rewrite <- (Z.lxor_lor _ _ H), <- (Z.add_nocarry_lxor _ _ H).
Qed.

Lemma mappings_cart_rom K cfg dev :
  mappings K cfg dev !! 18%nat
  = Some (A (MM_CART_ROM K) (size_t (rom_size cfg - 1)) M64P_MEM_ROM
            (RW (dev ->> "cart" ->> "cart_rom") "cart_rom")
            (RA NULL (size_t (rom_size cfg - 1)) (RETRO_MEMDESC_CONST K))).
Proof. unfold mappings. by destruct (0 <? dd_rom_size cfg). Qed.

(** For a cartridge whose size is aligned with the ROM base (no bit in
    common between the base and [rom_size - 1]) and which ends within the
    32-bit space, the cartridge entry of the table is exactly
    [[MM_CART_ROM, MM_CART_ROM + rom_size - 1]]; the length handed to the
    exporter is [rom_size - 1]. *)
Theorem cart_rom_mapping_aligned (K : constants) (cfg : config) (dev : pointer) :
  is_u32 (MM_CART_ROM K) →
  0 < rom_size cfg →
  Z.land (MM_CART_ROM K) (rom_size cfg - 1) = 0 →
  MM_CART_ROM K + rom_size cfg ≤ 2 ^ 32 →
  ∃ m, mappings K cfg dev !! 18%nat = Some m
       ∧ m_type m = M64P_MEM_ROM
       ∧ m_begin m = MM_CART_ROM K
       ∧ m_end m = MM_CART_ROM K + rom_size cfg - 1
       ∧ ra_len (retroarch_mapping m) = rom_size cfg - 1.
Proof.
  intros [Hlo Hhi] Hpos Hdisj Hfit.
  eexists. split; [apply mappings_cart_rom|]. simpl.
  assert (Hsz : size_t (rom_size cfg - 1) = rom_size cfg - 1).
  { unfold size_t. apply Z.mod_small. lia. }
  rewrite Hsz. repeat split.
  rewrite lor_disjoint_add by done. unfold u32. rewrite Z.mod_small; lia.
Qed.

Lemma cart_rom_mapping_aligned_witness :
  is_u32 (MM_CART_ROM n64)
  ∧ ∃ m, mappings n64 cart_only (Obj "dev") !! 18%nat = Some m
         ∧ m_end m = 0x10ffffff.
Proof.
  assert (H : is_u32 (MM_CART_ROM n64)) by (unfold is_u32; simpl; lia).
  split; [exact H|].
  destruct (cart_rom_mapping_aligned n64 cart_only (Obj "dev") H)
    as (m & Hm & _ & _ & Hend & _).
  - simpl. lia.
  - reflexivity.
  - simpl. lia.
  - exists m. split; [exact Hm | exact Hend].
Defined.

(** Without a cartridge ([rom_size = 0]) the subtraction [rom_size - 1]
    wraps around: the cartridge entry of the table runs from the ROM base
    to the very top of the address space, [0xffffffff], and the length
    handed to the exporter is [2^64 - 1]. *)
Theorem cart_rom_mapping_without_cart (K : constants) (cfg : config)
    (dev : pointer) :
  is_u32 (MM_CART_ROM K) →
  rom_size cfg = 0 →
  ∃ m, mappings K cfg dev !! 18%nat = Some m
       ∧ m_type m = M64P_MEM_ROM
       ∧ m_begin m = MM_CART_ROM K
       ∧ m_end m = 0xffffffff
       ∧ ra_len (retroarch_mapping m) = 2 ^ 64 - 1.
Proof.
  intros Hbase Hrom.
  eexists. split; [apply mappings_cart_rom|]. simpl. rewrite Hrom.
  repeat split. rewrite u32_lor by done.
  change (u32 (size_t (0 - 1))) with (Z.ones 32).
  unfold is_u32 in Hbase.
  destruct (Z.eq_dec (MM_CART_ROM K) 0) as [->|Hnz]; [done|].
  apply Z.lor_ones_low; [lia|]. apply Z.log2_lt_pow2; lia.
Qed.

Lemma cart_rom_mapping_without_cart_witness :
  is_u32 (MM_CART_ROM n64)
  ∧ ∃ m, mappings n64 nothing_plugged (Obj "dev") !! 18%nat = Some m
         ∧ m_begin m = 0x10000000 ∧ m_end m = 0xffffffff.
Proof.
  assert (H : is_u32 (MM_CART_ROM n64)) by (unfold is_u32; simpl; lia).
  split; [exact H|].
  destruct (cart_rom_mapping_without_cart n64 nothing_plugged (Obj "dev") H eq_refl)
    as (m & Hm & _ & Hbegin & Hend & _).
  exists m. split; [exact Hm|]. split; [exact Hbegin | exact Hend].
Defined.

(** ** The bounds of the exporter's array *)

Section Overrun.

Variable K : constants.
Variable s : memory.
Variable dev : pointer.

Implicit Types (written : list retro_memory_descriptor).

#[local] Arguments assign_region : simpl never.

Lemma assign_region_full p start len flags written n :
  (length written ≤ n)%nat →
  assign_region p start len flags (written, n) = None.
Proof.
  intros Hn. unfold assign_region, assign. rewrite decide_False; [done | lia].
Qed.

Lemma length_exported mapping :
  (length (exported K s dev mapping) ≤ 2)%nat
  ∧ (length (exported K s dev mapping) = 2%nat → exported_twice mapping)
  ∧ (¬ exported_specially mapping →
     ra_ptr (retroarch_mapping mapping) = NULL →
     exported K s dev mapping = []).
Proof.
  unfold exported, exported_twice, exported_specially.
  destruct (m_type mapping); simpl; repeat case_decide; simpl;
    (split; [lia|]); (split; [intros; (lia || auto)|]);
    intros Hspecial Hptr; try done; try congruence;
    exfalso; apply Hspecial; in_list.
Qed.

(** One iteration with too few free slots writes past the end. *)
Lemma export_mapping_overrun mapping written k :
  (k < length (exported K s dev mapping))%nat →
  export_mapping K s dev mapping (written ++ replicate k zero_desc, length written)
  = None.
Proof.
  unfold export_mapping, exported.
  destruct (m_type mapping); simpl;
    try (case_decide; simpl);
    intros Hk; try lia;
    try (assert (k = 0%nat) as -> by lia; simpl; rewrite app_nil_r;
         apply assign_region_full; lia).
  - (* RDRAM *)
    destruct k as [|[|k]]; [| |lia]; simpl.
    + rewrite app_nil_r. unfold assign. by rewrite decide_False by lia.
    + repeat (rewrite assign_at; simpl).
      apply assign_region_full. rewrite length_app. simpl. lia.
  - (* PIF *)
    destruct k as [|[|k]]; [| |lia]; simpl.
    + rewrite app_nil_r. by rewrite assign_region_full by lia.
    + rewrite assign_region_at by done. simpl.
      apply assign_region_full. rewrite length_app. simpl. lia.
Qed.

Lemma export_loop_overrun mappings : ∀ written k,
  (k < length (exported_all K s dev mappings))%nat →
  export_loop K s dev mappings (written ++ replicate k zero_desc, length written)
  = None.
Proof.
  unfold exported_all.
  induction mappings as [|mapping rest IH]; intros written k.
  - simpl. lia.
  - rewrite bind_cons, length_app. intros Hk. cbn [export_loop].
    destruct (decide (k < length (exported K s dev mapping))%nat) as [Hlt|Hge].
    + by rewrite export_mapping_overrun.
    + rewrite export_mapping_fits by lia. cbn [mbind option_bind].
      rewrite app_assoc.
      replace (length written + length (exported K s dev mapping))%nat
        with (length (written ++ exported K s dev mapping))
        by (by rewrite length_app).
      apply IH. lia.
Qed.

Lemma length_exported_all mappings :
  (length (exported_all K s dev mappings)
   ≤ length mappings + length (filter exported_twice mappings))%nat.
Proof.
  unfold exported_all. induction mappings as [|m rest IH]; [simpl; lia|].
  rewrite bind_cons, length_app, filter_cons.
  destruct (length_exported m) as (H2 & Htwice & _).
  case_decide; simpl; [lia|].
  assert (length (exported K s dev m) ≠ 2%nat) by (intros ?; auto). lia.
Qed.

End Overrun.

(** The exporter stays within [descs[mappings_count + 2]] exactly when the
    table gives rise to at most [mappings_count + 2] descriptors; with more,
    it writes past the end of the array. *)
Theorem setup_retroarch_memory_map_defined (K : constants)
    (extern : call → memory → memory) (mappings : list mem_mapping)
    (dev : pointer) (w : world) :
  (is_Some (setup_retroarch_memory_map K extern mappings dev w)
   ↔ fits K (mem w) dev mappings)
  ∧ (setup_retroarch_memory_map K extern mappings dev w = None
     ↔ (length mappings + 2 < length (exported_all K (mem w) dev mappings))%nat).
Proof.
  assert (Hover : (length mappings + 2
                   < length (exported_all K (mem w) dev mappings))%nat →
                  setup_retroarch_memory_map K extern mappings dev w = None).
  { intros Hlt. unfold setup_retroarch_memory_map.
    pose proof (export_loop_overrun K (mem w) dev mappings [] _ Hlt) as H.
    simpl in H. by rewrite H. }
  unfold fits. split; split.
  - intros [w' Hw']. destruct (decide (length (exported_all K (mem w) dev mappings)
                                       ≤ length mappings + 2)%nat); [done|].
    rewrite Hover in Hw' by lia. done.
  - intros Hfits. rewrite setup_retroarch_memory_map_fits by done. eauto.
  - intros Hnone. destruct (decide (length (exported_all K (mem w) dev mappings)
                                    ≤ length mappings + 2)%nat); [|lia].
    rewrite setup_retroarch_memory_map_fits in Hnone by done. done.
  - done.
Qed.

Lemma setup_retroarch_memory_map_defined_witness :
  setup_retroarch_memory_map n64 no_effect three_rdram (Obj "dev") zero_world
  = None.
Proof.
  apply (setup_retroarch_memory_map_defined n64 no_effect three_rdram (Obj "dev")
           zero_world).
  vm_compute. lia.
Defined.

(** Every mapping gives one descriptor at most, except the RDRAM and PIF
    ones, which give two: a table with no more than two such entries, as
    the comment of the exporter supposes, never overruns the array, and the
    number of descriptors announced is at most [mappings_count + 2]. *)
Theorem setup_retroarch_memory_map_in_bounds (K : constants)
    (extern : call → memory → memory) (mappings : list mem_mapping)
    (dev : pointer) (w : world) :
  (length (filter exported_twice mappings) ≤ 2)%nat →
  ∃ descs n,
    setup_retroarch_memory_map K extern mappings dev w
    = Some (invoke extern "environ_cb"
              [A_name "RETRO_ENVIRONMENT_SET_MEMORY_MAPS"; A_retromap descs n] w)
    ∧ length descs = (length mappings + 2)%nat
    ∧ (n ≤ length mappings + length (filter exported_twice mappings))%nat
    ∧ take n descs = exported_all K (mem w) dev mappings
    ∧ drop n descs = replicate (length mappings + 2 - n) zero_desc.
Proof.
  intros Htwice.
  pose proof (length_exported_all K (mem w) dev mappings) as Hlen.
  assert (Hfits : fits K (mem w) dev mappings) by (unfold fits; lia).
  eexists _, _. split; [by apply setup_retroarch_memory_map_fits|].
  split; [|split; [done|split]].
  - rewrite length_app, length_replicate. unfold fits in Hfits. lia.
  - by rewrite take_app_length.
  - by rewrite drop_app_length.
Qed.

Lemma setup_retroarch_memory_map_in_bounds_witness :
  (length (filter exported_twice (mappings n64 cart_and_disk (Obj "dev"))) ≤ 2)%nat
  ∧ is_Some (setup_retroarch_memory_map n64 no_effect
               (mappings n64 cart_and_disk (Obj "dev")) (Obj "dev") zero_world).
Proof.
  assert (H : (length (filter exported_twice
                         (mappings n64 cart_and_disk (Obj "dev"))) ≤ 2)%nat)
    by (vm_compute; lia).
  split; [exact H|].
  destruct (setup_retroarch_memory_map_in_bounds n64 no_effect
              (mappings n64 cart_and_disk (Obj "dev")) (Obj "dev") zero_world H)
    as (descs & n & Hsetup & _).
  rewrite Hsetup. eexists. reflexivity.
Defined.

(** An empty table, or one whose regions have no host pointer and need no
    special handling, exports nothing: the environment is handed zero
    descriptors and an array of zeroed slots. *)
Theorem setup_retroarch_memory_map_nothing (K : constants)
    (extern : call → memory → memory) (mappings : list mem_mapping)
    (dev : pointer) (w : world) :
  Forall (λ m, ¬ exported_specially m ∧ ra_ptr (retroarch_mapping m) = NULL)
    mappings →
  setup_retroarch_memory_map K extern mappings dev w
  = Some (invoke extern "environ_cb"
            [A_name "RETRO_ENVIRONMENT_SET_MEMORY_MAPS";
             A_retromap (replicate (length mappings + 2) zero_desc) 0] w).
Proof.
  intros Hplain.
  assert (Hnone : exported_all K (mem w) dev mappings = []).
  { unfold exported_all. induction Hplain as [|m rest [Hs Hp] _ IH]; [done|].
    rewrite bind_cons, IH.
    destruct (length_exported K (mem w) dev m) as (_ & _ & Hnil).
    by rewrite Hnil. }
  rewrite setup_retroarch_memory_map_fits by (unfold fits; rewrite Hnone; simpl; lia).
  rewrite Hnone. simpl. by rewrite Nat.sub_0_r.
Qed.

Lemma setup_retroarch_memory_map_nothing_witness :
  setup_retroarch_memory_map n64 no_effect [] (Obj "dev") zero_world
  = Some (invoke no_effect "environ_cb"
            [A_name "RETRO_ENVIRONMENT_SET_MEMORY_MAPS";
             A_retromap [zero_desc; zero_desc] 0] zero_world).
Proof.
  apply (setup_retroarch_memory_map_nothing n64 no_effect [] (Obj "dev") zero_world).
  constructor.
Defined.



(** ** The calls of composition *)

Lemma length_exported_mappings K cfg dev s :
  length (exported_all K s dev (mappings K cfg dev))
  = if 0 <? dd_rom_size cfg then 20%nat else 18%nat.
Proof.
  unfold exported_all, mappings.
  destruct (0 <? dd_rom_size cfg); by vm_compute.
Qed.

(** Composition always completes, and its calls come in one fixed order:
    [init_dd] first, and only when a disk is given, with the DD ROM area
    and the disk-ROM size; then memory, RDRAM, the CPU core, RDP, RSP, AI,
    MI, PI, RI, SI, VI, PIF, the cartridge, and the export of the map.
    [init_memory] receives the table of twenty entries. *)
Theorem init_device_call_order (K : constants) (extern : call → memory → memory)
    (cfg : config) (dev : pointer) (w : world) :
  ∃ w1, init_device K extern cfg dev w = Some w1
    ∧ fn <$> calls_since w w1
      = (if 0 <? dd_rom_size cfg then [Direct "init_dd"] else []) ++ init_callees
    ∧ (0 < dd_rom_size cfg →
       head (calls_since w w1) = Some (init_dd_call K cfg dev))
    ∧ init_memory_call K cfg dev ∈ calls_since w w1
    ∧ trace w1 = trace w ++ calls_since w w1.
Proof.
  destruct (init_device_runs K extern cfg dev w)
    as (w1 & l & Hinit & Hruns & Hl & Hfn & _ & Hmem & _).
  exists w1. rewrite (runs_calls_since _ _ _ _ Hruns).
  split; [done|]. split; [|split; [|split; [done|by destruct Hruns]]].
  - rewrite Hl, fmap_app, Hfn. by destruct (0 <? dd_rom_size cfg).
  - intros Hdd. apply Z.ltb_lt in Hdd. rewrite Hdd in Hl. by rewrite Hl.
Qed.

Lemma init_device_call_order_witness :
  ∃ w1, init_device n64 no_effect cart_and_disk (Obj "dev") zero_world = Some w1
        ∧ head (calls_since zero_world w1)
          = Some (init_dd_call n64 cart_and_disk (Obj "dev")).
Proof.
  destruct (init_device_call_order n64 no_effect cart_and_disk (Obj "dev") zero_world)
    as (w1 & Hinit & _ & Hhead & _).
  exists w1. split; [exact Hinit|]. apply Hhead. simpl. lia.
Defined.

(** The export of the map is the last step of composition and reads the
    device as all the preceding calls have left it; it announces 20
    descriptors when a disk is given and 18 otherwise, in an array of 22
    slots whose remaining ones are zeroed. *)
Theorem init_device_exports_last (K : constants) (extern : call → memory → memory)
    (cfg : config) (dev : pointer) (w : world) :
  ∃ w1 l descs n,
    init_device K extern cfg dev w = Some w1
    ∧ calls_since w w1
      = l ++ [environ_call K (replay extern l (mem w)) dev (mappings K cfg dev)]
    ∧ environ_call K (replay extern l (mem w)) dev (mappings K cfg dev)
      = {| fn := Direct "environ_cb";
           args := [A_name "RETRO_ENVIRONMENT_SET_MEMORY_MAPS";
                    A_retromap descs n] |}
    ∧ n = (if 0 <? dd_rom_size cfg then 20%nat else 18%nat)
    ∧ length descs = 22%nat
    ∧ take n descs
      = exported_all K (replay extern l (mem w)) dev (mappings K cfg dev)
    ∧ drop n descs = replicate (22 - n) zero_desc.
Proof.
  assert (Hstep : ∃ w1 l w0,
            init_device K extern cfg dev w = Some w1
            ∧ runs extern l w w0
            ∧ w1 = perform extern (environ_call K (mem w0) dev (mappings K cfg dev)) w0).
  { unfold init_device.
    rewrite setup_retroarch_memory_map_fits by apply mappings_fit.
    destruct (0 <? dd_rom_size cfg);
      (eexists _, _, _; split; [reflexivity|]);
      (split; [|unfold invoke at 1; reflexivity]);
      repeat eapply runs_invoke; apply runs_refl. }
  destruct Hstep as (w1 & l & w0 & Hinit & Hruns & ->).
  pose proof (runs_perform extern l
                (environ_call K (mem w0) dev (mappings K cfg dev)) w w0 Hruns)
    as Hruns1.
  destruct Hruns as [_ Hmem]. rewrite Hmem in *.
  eexists _, l, _, _. split; [exact Hinit|].
  split; [by rewrite (runs_calls_since _ _ _ _ Hruns1)|].
  split; [reflexivity|].
  pose proof (length_exported_mappings K cfg dev (replay extern l (mem w))) as Hn.
  pose proof (length_mappings K cfg dev) as H20.
  split; [exact Hn|]. split; [|split].
  - rewrite length_app, length_replicate, Hn, H20.
    by destruct (0 <? dd_rom_size cfg).
  - by rewrite take_app_length.
  - rewrite drop_app_length, Hn, H20. reflexivity.
Qed.

(** ** The calls of power-on *)

Section PowerOnCalls.

Variable K : constants.
Variable extern : call → memory → memory.
Variable dev : pointer.

Lemma poweron_channel_calls l w w0 i :
  runs extern l w w0 →
  runs extern (l ++ channel_calls dev (mem w0) i) w
    (poweron_channel extern dev w0 i).
Proof.
  intros Hruns. unfold poweron_channel, channel_calls.
  destruct (decide (ptrs (mem w0)
                      (Index (dev ->> "pif" ->> "channels") i ->> "ijbd") ≠ NULL))
    as [Hi|Hi].
  - destruct (decide (ptrs (mem w0)
                        (ptrs (mem w0)
                           (Index (dev ->> "pif" ->> "channels") i ->> "ijbd")
                         ->> "poweron") ≠ NULL)) as [Hp|Hp].
    + rewrite decide_True by done. by apply runs_invoke_ptr.
    + rewrite decide_False by (by intros [_ ?]). by rewrite app_nil_r.
  - rewrite decide_False by (by intros [? _]). by rewrite app_nil_r.
Qed.

Lemma channel_calls_indirect s i :
  Forall is_indirect (channel_calls dev s i)
  ∧ (length (channel_calls dev s i) ≤ 1)%nat.
Proof.
  unfold channel_calls. case_decide; simpl; split; try lia; repeat constructor.
  by eexists.
Qed.

(** The loop over the channels makes indirect calls only, one per channel
    at most. *)
Lemma poweron_channels_calls (channels : list nat) : ∀ l w w0,
  runs extern l w w0 →
  ∃ lch, runs extern (l ++ lch) w (foldl (poweron_channel extern dev) w0 channels)
         ∧ Forall is_indirect lch
         ∧ (length lch ≤ length channels)%nat.
Proof.
  induction channels as [|i channels IH]; intros l w w0 Hruns; simpl.
  - exists []. rewrite app_nil_r. split; [done|]. split; [apply Forall_nil_2 | simpl; lia].
  - pose proof (poweron_channel_calls l w w0 i Hruns) as Hstep.
    destruct (IH _ _ _ Hstep) as (lch & Hruns' & Hind & Hlen).
    destruct (channel_calls_indirect (mem w0) i) as [Hind0 Hlen0].
    exists (channel_calls dev (mem w0) i ++ lch).
    rewrite app_assoc. split; [done|]. split.
    + by apply Forall_app.
    + rewrite length_app. lia.
Qed.

(** With collaborators that leave the pointer cells alone, the loop calls
    exactly the channels that have an interface with a power-on entry. *)
Lemma poweron_channels_exact (channels : list nat) : ∀ l w w0,
  (∀ c s x, ptrs (extern c s) x = ptrs s x) →
  runs extern l w w0 →
  (∀ x, ptrs (mem w0) x = ptrs (mem w) x) →
  runs extern (l ++ (channels ≫= channel_calls dev (mem w))) w
    (foldl (poweron_channel extern dev) w0 channels)
  ∧ ∀ x, ptrs (mem (foldl (poweron_channel extern dev) w0 channels)) x
         = ptrs (mem w) x.
Proof.
  induction channels as [|i channels IH]; intros l w w0 Hframe Hruns Hptrs.
  - simpl. by rewrite app_nil_r.
  - cbn [foldl]. rewrite bind_cons, app_assoc.
    assert (Hsame : channel_calls dev (mem w) i = channel_calls dev (mem w0) i).
    { unfold channel_calls. by rewrite !Hptrs. }
    rewrite Hsame. apply IH; [done|by apply poweron_channel_calls|].
    intros x. unfold poweron_channel.
    repeat case_decide; simpl; by rewrite ?Hframe, Hptrs.
Qed.

End PowerOnCalls.

(** Power-on calls its thirteen fixed routines in order, RDRAM first and
    the IS viewer last; then come the power-on entries of the controller
    channels, through their interface pointers, one per channel at most;
    [poweron_dd] comes last, and exactly when [dev->dd.rom] is not null
    after all the calls before it. *)
Theorem poweron_device_call_order (K : constants)
    (extern : call → memory → memory) (dev : pointer) (w : world) :
  ∃ l13 lch,
    calls_since w (poweron_device K extern dev w)
    = l13 ++ lch
      ++ (if decide (ptrs (replay extern (l13 ++ lch) (mem w))
                       (dev ->> "dd" ->> "rom") ≠ NULL)
          then [poweron_dd_call dev] else [])
    ∧ fn <$> l13 = poweron_callees
    ∧ Forall is_indirect lch
    ∧ (length lch ≤ GAME_CONTROLLERS_COUNT K)%nat
    ∧ mem (poweron_device K extern dev w)
      = replay extern (calls_since w (poweron_device K extern dev w)) (mem w).
Proof.
  unfold poweron_device.
  match goal with
  | |- context [foldl _ ?w13 _] => set (W13 := w13)
  end.
  assert (H13 : ∃ l, runs extern l w W13 ∧ fn <$> l = poweron_callees).
  { eexists. split; [repeat eapply runs_invoke; apply runs_refl|]. reflexivity. }
  destruct H13 as (l13 & Hruns13 & Hfn).
  destruct (poweron_channels_calls extern dev (seq 0 (GAME_CONTROLLERS_COUNT K))
              l13 w W13 Hruns13) as (lch & Hruns & Hind & Hlen).
  rewrite length_seq in Hlen.
  set (Wc := foldl (poweron_channel extern dev) W13
               (seq 0 (GAME_CONTROLLERS_COUNT K))) in *.
  exists l13, lch.
  pose proof Hruns as [_ Hmem]. rewrite <- Hmem.
  assert (Hall : runs extern
            (l13 ++ lch
               ++ (if decide (ptrs (mem Wc) (dev ->> "dd" ->> "rom") ≠ NULL)
                   then [poweron_dd_call dev] else []))
            w (if decide (ptrs (mem Wc) (dev ->> "dd" ->> "rom") ≠ NULL)
               then invoke extern "poweron_dd" [A_ptr (dev ->> "dd")] Wc
               else Wc)).
  { rewrite app_assoc. case_decide.
    - by apply runs_invoke.
    - by rewrite app_nil_r. }
  rewrite (runs_calls_since _ _ _ _ Hall).
  split; [done|]. split; [done|]. split; [done|]. split; [done|].
  by destruct Hall.
Qed.

(** With collaborators that leave the pointer cells alone, power-on is
    fully determined by the device it finds: the thirteen fixed calls, then
    for every channel below [GAME_CONTROLLERS_COUNT], in order, the power-on
    entry of its interface on its device if it has both (and nothing for a
    channel without an interface or without a power-on entry), then
    [poweron_dd] on [&dev->dd] if and only if [dev->dd.rom] is not null. *)
Theorem poweron_device_calls (K : constants) (extern : call → memory → memory)
    (dev : pointer) (w : world) :
  (∀ c s x, ptrs (extern c s) x = ptrs s x) →
  ∃ l13,
    calls_since w (poweron_device K extern dev w)
    = l13
      ++ (seq 0 (GAME_CONTROLLERS_COUNT K) ≫= channel_calls dev (mem w))
      ++ (if decide (ptrs (mem w) (dev ->> "dd" ->> "rom") ≠ NULL)
          then [poweron_dd_call dev] else [])
    ∧ fn <$> l13 = poweron_callees
    ∧ l13 !! 0%nat = Some {| fn := Direct "poweron_rdram";
                             args := [A_ptr (dev ->> "rdram")] |}
    ∧ l13 !! 12%nat = Some {| fn := Direct "poweron_is_viewer";
                              args := [A_ptr (dev ->> "is")] |}.
Proof.
  intros Hframe. unfold poweron_device.
  match goal with
  | |- context [foldl _ ?w13 _] =>
      assert (H13 : ∃ l, runs extern l w w13
                         ∧ fn <$> l = poweron_callees
                         ∧ l !! 0%nat = Some {| fn := Direct "poweron_rdram";
                                                args := [A_ptr (dev ->> "rdram")] |}
                         ∧ l !! 12%nat = Some {| fn := Direct "poweron_is_viewer";
                                                 args := [A_ptr (dev ->> "is")] |}
                         ∧ ∀ x, ptrs (mem w13) x = ptrs (mem w) x)
  end.
  { eexists. split; [repeat eapply runs_invoke; apply runs_refl|].
    split; [reflexivity|]. split; [reflexivity|]. split; [reflexivity|].
    intros x. simpl. by rewrite !Hframe. }
  destruct H13 as (l13 & Hruns13 & Hfn & H0 & H12 & Hptrs13).
  destruct (poweron_channels_exact extern dev (seq 0 (GAME_CONTROLLERS_COUNT K))
              l13 w _ Hframe Hruns13 Hptrs13) as [Hruns Hptrs].
  exists l13. split; [|done].
  rewrite Hptrs. rewrite app_assoc. apply runs_calls_since with (extern := extern).
  case_decide.
  - by apply runs_invoke.
  - by rewrite app_nil_r.
Qed.

Lemma poweron_device_calls_witness :
  drop 13 (calls_since {| mem := one_pad; trace := [] |}
             (poweron_device n64 no_effect (Obj "dev")
                {| mem := one_pad; trace := [] |}))
  = [{| fn := Indirect (Func "poweron_pad"); args := [A_ptr (Obj "pad")] |};
     poweron_dd_call (Obj "dev")].
Proof.
  destruct (poweron_device_calls n64 no_effect (Obj "dev")
              {| mem := one_pad; trace := [] |})
    as (l13 & Hcalls & Hfn & _).
  - reflexivity.
  - rewrite Hcalls.
    assert (Hlen : length l13 = 13%nat).
    { rewrite <- (length_fmap fn), Hfn. reflexivity. }
    rewrite drop_app_length' by (symmetry; exact Hlen). reflexivity.
Defined.

(** ** How stop and the resets compose *)

(** [stop_device], [hard_reset_device] and [soft_reset_device] touch
    separate parts of the device, the stop flag, [reset_hard_job] and the
    event queue: in whatever order two of them are called the device ends
    up the same; stopping twice, or asking twice for a hard reset, is the
    same as once. *)
Theorem lifecycle_requests_commute (K : constants)
    (r4300_stop : pointer → pointer) (dev : pointer) (w : world) :
  r4300_stop (dev ->> "r4300") ≠ dev ->> "r4300" ->> "reset_hard_job" →
  same_world (stop_device r4300_stop dev (hard_reset_device dev w))
             (hard_reset_device dev (stop_device r4300_stop dev w))
  ∧ same_world (stop_device r4300_stop dev (soft_reset_device K dev w))
               (soft_reset_device K dev (stop_device r4300_stop dev w))
  ∧ same_world (hard_reset_device dev (soft_reset_device K dev w))
               (soft_reset_device K dev (hard_reset_device dev w))
  ∧ same_world (stop_device r4300_stop dev (stop_device r4300_stop dev w))
               (stop_device r4300_stop dev w)
  ∧ same_world (hard_reset_device dev (hard_reset_device dev w))
               (hard_reset_device dev w).
Proof.
  intros Hne. unfold same_world, stop_device, hard_reset_device,
    soft_reset_device, add_interrupt_event, store_int, enqueue. simpl.
  repeat split; intros l; repeat case_decide; congruence.
Qed.

Lemma lifecycle_requests_commute_witness :
  same_world
    (stop_device (λ r4300, r4300 ->> "stop") (Obj "dev")
       (hard_reset_device (Obj "dev") zero_world))
    (hard_reset_device (Obj "dev")
       (stop_device (λ r4300, r4300 ->> "stop") (Obj "dev") zero_world)).
Proof.
  apply (lifecycle_requests_commute n64 (λ r4300, r4300 ->> "stop") (Obj "dev")
           zero_world).
  discriminate.
Defined.

(** * Properties of the frontend *)

Section FrontendStrings.

Import Frontend.

Lemma byte_inj (a b : ascii) : byte a = byte b → a = b.
Proof.
  unfold byte. intros H. apply Nat2Z.inj in H.
  rewrite <- (ascii_nat_embedding a), <- (ascii_nat_embedding b). by rewrite H.
Qed.

Lemma byte_nonneg (a : ascii) : 0 ≤ byte a.
Proof. unfold byte. lia. Qed.

Lemma byte_zero (a : ascii) : byte a = 0 → a = "000"%char.
Proof. intros H. by apply byte_inj. Qed.

(** For C strings, [strcmp] is zero on equal strings only. *)
Lemma strcmp_eq (s1 s2 : cstring) :
  c_string s1 → c_string s2 → (strcmp s1 s2 = 0 ↔ s1 = s2).
Proof.
  unfold c_string. revert s2.
  induction s1 as [|c1 s1 IH]; intros [|c2 s2] H1 H2; simpl.
  - done.
  - split; [|done]. intros H. exfalso. apply H2.
    assert (byte c2 = 0) as ->%byte_zero by lia. apply list_elem_of_here.
  - split; [|done]. intros ->%byte_zero. exfalso. apply H1, list_elem_of_here.
  - apply not_elem_of_cons in H1 as [_ H1]. apply not_elem_of_cons in H2 as [_ H2].
    case_decide as Hc.
    + subst. rewrite IH by done. split; [by intros -> | by intros [= ->]].
    + split; [|by intros [= -> _]]. intros H. exfalso. apply Hc, byte_inj. lia.
Qed.

Lemma strcmp_pos_asym (s1 s2 : cstring) :
  0 < strcmp s1 s2 → ¬ 0 < strcmp s2 s1.
Proof.
  revert s2. induction s1 as [|c1 s1 IH]; intros [|c2 s2]; simpl.
  - lia.
  - pose proof (byte_nonneg c2). lia.
  - pose proof (byte_nonneg c1). lia.
  - repeat case_decide; subst; try done; try lia. apply IH.
Qed.

Lemma strcmp_pos_trans (s1 s2 s3 : cstring) :
  0 < strcmp s1 s2 → 0 < strcmp s2 s3 → 0 < strcmp s1 s3.
Proof.
  revert s2 s3.
  induction s1 as [|c1 s1 IH]; intros [|c2 s2] [|c3 s3]; simpl;
    try lia;
    try (pose proof (byte_nonneg c1)); try (pose proof (byte_nonneg c2));
    try (pose proof (byte_nonneg c3));
    repeat case_decide; subst; try done; try lia.
  apply IH.
Qed.

Lemma strcasecmp_same_length (s1 s2 : cstring) :
  length s1 = length s2 →
  (strcasecmp s1 s2 = 0 ↔ tolower <$> s1 = tolower <$> s2).
Proof.
  revert s2. induction s1 as [|c1 s1 IH]; intros [|c2 s2] Hlen; try done.
  injection Hlen as Hlen. rewrite !fmap_cons. cbn [strcasecmp].
  specialize (IH s2 Hlen). case_decide as Hc.
  - split.
    + intros H. apply IH in H. by rewrite Hc, H.
    + intros [= _ H]. by apply IH.
  - split; [|by intros [= ? _]]. intros H. exfalso. apply Hc, byte_inj. lia.
Qed.

Lemma strrchr_absent (s : cstring) (ch : ascii) : ch ∉ s → strrchr s ch = None.
Proof.
  induction s as [|c s IH]; [done|]. intros [Hc Hs]%not_elem_of_cons. simpl.
  rewrite IH by done. by rewrite decide_False.
Qed.

Lemma strrchr_last (s1 s2 : cstring) (ch : ascii) :
  ch ∉ s2 → strrchr (s1 ++ ch :: s2) ch = Some (length s1).
Proof.
  intros Hs2. induction s1 as [|c s1 IH]; simpl.
  - rewrite strrchr_absent by done. by rewrite decide_True.
  - by rewrite IH.
Qed.

End FrontendStrings.

(** ** ROM file names *)

(** A name is taken for a ROM file exactly when it ends in four characters
    that read [.z64] or [.n64] once put in lower case; nothing need come
    before them, and a name of fewer than four characters is never one. *)
Theorem is_rom_file_extension (filename : Frontend.cstring) :
  Frontend.is_rom_file filename = true
  ↔ ∃ stem ext,
      filename = stem ++ ext
      ∧ length ext = 4%nat
      ∧ (Frontend.tolower <$> ext = Frontend.lit ".z64"
         ∨ Frontend.tolower <$> ext = Frontend.lit ".n64").
Proof.
  unfold Frontend.is_rom_file.
  assert (Hext : ∀ ext, length ext = 4%nat →
            ((Frontend.strcasecmp ext (Frontend.lit ".z64") =? 0)
             || (Frontend.strcasecmp ext (Frontend.lit ".n64") =? 0) = true
             ↔ Frontend.tolower <$> ext = Frontend.lit ".z64"
               ∨ Frontend.tolower <$> ext = Frontend.lit ".n64")).
  { intros ext Hlen. rewrite orb_true_iff, !Z.eqb_eq.
    by rewrite !strcasecmp_same_length by done. }
  destruct (length filename <? 4)%nat eqn:Hlen.
  - apply Nat.ltb_lt in Hlen. split; [done|].
    intros (stem & ext & -> & Hext4 & _). rewrite length_app in Hlen. lia.
  - apply Nat.ltb_ge in Hlen. split.
    + intros H. exists (take (length filename - 4) filename),
        (drop (length filename - 4) filename).
      assert (Hd : length (drop (length filename - 4) filename) = 4%nat)
        by (rewrite length_drop; lia).
      split; [by rewrite take_drop|]. split; [done|]. by apply Hext.
    + intros (stem & ext & -> & Hext4 & Hlow).
      rewrite length_app, Hext4.
      replace (length stem + 4 - 4)%nat with (length stem) by lia.
      rewrite drop_app_length. by apply Hext.
Qed.

Lemma is_rom_file_extension_witness :
  Frontend.is_rom_file (Frontend.lit "Mario.N64") = true
  ∧ Frontend.is_rom_file (Frontend.lit ".z64") = true
  ∧ Frontend.is_rom_file (Frontend.lit "z64") = false.
Proof.
  split; [|split].
  - apply is_rom_file_extension.
    exists (Frontend.lit "Mario"), (Frontend.lit ".N64").
    split; [reflexivity|]. split; [reflexivity|]. right. reflexivity.
  - apply is_rom_file_extension.
    exists [], (Frontend.lit ".z64").
    split; [reflexivity|]. split; [reflexivity|]. left. reflexivity.
  - destruct (Frontend.is_rom_file (Frontend.lit "z64")) eqn:H; [|reflexivity].
    apply is_rom_file_extension in H as (stem & ext & Hname & Hlen & _).
    apply (f_equal length) in Hname. rewrite length_app, Hlen in Hname.
    simpl in Hname. lia.
Defined.

(** ** The gamepad *)

Section Gamepad.

Import Frontend.

Lemma length_fill (f : nat → Z) (n : nat) (l : list Z) :
  length (foldl (λ states i, <[i := f i]> states) l (seq 0 n)) = length l.
Proof.
  induction n as [|n IH]; [done|].
  rewrite seq_S, foldl_app. simpl. by rewrite length_insert.
Qed.

Lemma fill_lookup (f : nat → Z) (n : nat) (l : list Z) (k : nat) :
  foldl (λ states i, <[i := f i]> states) l (seq 0 n) !! k
  = if decide (k < n ∧ k < length l)%nat then Some (f k) else l !! k.
Proof.
  induction n as [|n IH].
  - rewrite decide_False by lia. done.
  - rewrite seq_S, foldl_app. cbn [foldl]. change (0 + n)%nat with n.
    rewrite list_lookup_insert, length_fill, IH.
    repeat case_decide; destruct_and?; subst; first [done | exfalso; lia].
Qed.

Lemma length_copy (src : list Z) (n : nat) (l : list Z) :
  length (foldl (λ prev i, match src !! i with
                           | Some v => <[i := v]> prev
                           | None => prev
                           end) l (seq 0 n)) = length l.
Proof.
  induction n as [|n IH]; [done|].
  rewrite seq_S, foldl_app. simpl. destruct (src !! n); [|done].
  by rewrite length_insert.
Qed.

Lemma copy_lookup (src : list Z) (n : nat) (l : list Z) (k : nat) :
  foldl (λ prev i, match src !! i with
                   | Some v => <[i := v]> prev
                   | None => prev
                   end) l (seq 0 n) !! k
  = if decide (k < n ∧ k < length l ∧ k < length src)%nat then src !! k
    else l !! k.
Proof.
  induction n as [|n IH].
  - rewrite decide_False by lia. done.
  - rewrite seq_S, foldl_app. cbn [foldl]. change (0 + n)%nat with n.
    destruct (src !! n) as [v|] eqn:Hn.
    + pose proof (lookup_lt_Some _ _ _ Hn).
      rewrite list_lookup_insert, length_copy, IH.
      repeat case_decide; destruct_and?; subst; first [done | exfalso; lia].
    + apply lookup_ge_None in Hn. rewrite IH.
      repeat case_decide; destruct_and?; subst; first [done | exfalso; lia].
Qed.

End Gamepad.

(** A button counts as pressed only on the update at which it goes down:
    after [update_gamepad], [button_pressed] is 1 exactly when the button
    reads down now and read up at the update before; it is 0 again after
    the next update if the button is merely held.  Without a controller,
    [update_gamepad] changes nothing. *)
Theorem button_pressed_on_edge (button_max : nat)
    (get_button get_button' : pointer → nat → Z)
    (gp : Frontend.GamepadState) (button : nat) (before : Z) :
  length (Frontend.button_states gp) = button_max →
  length (Frontend.prev_button_states gp) = button_max →
  Frontend.button_states gp !! button = Some before →
  let gp1 := Frontend.update_gamepad button_max get_button gp in
  let gp2 := Frontend.update_gamepad button_max get_button' gp1 in
  let now := get_button (Frontend.controller gp) button in
  (Frontend.controller gp = NULL → gp1 = gp)
  ∧ (Frontend.controller gp ≠ NULL →
     Frontend.button_pressed gp1 button
       = Some (if negb (now =? 0) && (before =? 0) then 1 else 0)
     ∧ (get_button' (Frontend.controller gp) button = now →
        Frontend.button_pressed gp2 button = Some 0)).
Proof.
  intros Hs Hp Hb gp1 gp2 now.
  pose proof (lookup_lt_Some _ _ _ Hb) as Hlt.
  split.
  { intros Hnull. subst gp1. unfold Frontend.update_gamepad.
    by rewrite decide_True. }
  intros Hc.
  assert (H1s : Frontend.button_states gp1 !! button = Some now).
  { subst gp1. unfold Frontend.update_gamepad. rewrite decide_False by done.
    simpl. rewrite fill_lookup. by rewrite decide_True by lia. }
  assert (H1p : Frontend.prev_button_states gp1 !! button = Some before).
  { subst gp1. unfold Frontend.update_gamepad. rewrite decide_False by done.
    simpl. rewrite copy_lookup. by rewrite decide_True by lia. }
  assert (H1c : Frontend.controller gp1 = Frontend.controller gp).
  { subst gp1. unfold Frontend.update_gamepad. by rewrite decide_False by done. }
  assert (H1l : length (Frontend.button_states gp1) = button_max
                ∧ length (Frontend.prev_button_states gp1) = button_max).
  { subst gp1. unfold Frontend.update_gamepad. rewrite decide_False by done.
    simpl. by rewrite length_fill, length_copy. }
  destruct H1l as [H1ls H1lp].
  split.
  - unfold Frontend.button_pressed. rewrite H1s, H1p. reflexivity.
  - intros Hsame.
    assert (H2s : Frontend.button_states gp2 !! button = Some now).
    { subst gp2. unfold Frontend.update_gamepad.
      rewrite decide_False by (by rewrite H1c).
      simpl. rewrite fill_lookup, decide_True by lia.
      by rewrite H1c, Hsame. }
    assert (H2p : Frontend.prev_button_states gp2 !! button = Some now).
    { subst gp2. unfold Frontend.update_gamepad.
      rewrite decide_False by (by rewrite H1c).
      simpl. rewrite copy_lookup. by rewrite decide_True by lia. }
    unfold Frontend.button_pressed. rewrite H2s, H2p. simpl.
    by destruct (now =? 0).
Qed.

Lemma button_pressed_on_edge_witness :
  Frontend.button_pressed
    (Frontend.update_gamepad 3 Frontend.two_down Frontend.held_pad) 0 = Some 0
  ∧ Frontend.button_pressed
      (Frontend.update_gamepad 3 Frontend.two_down Frontend.held_pad) 1 = Some 1.
Proof.
  split.
  - destruct (button_pressed_on_edge 3 Frontend.two_down Frontend.two_down
                Frontend.held_pad 0 1 eq_refl eq_refl eq_refl) as [_ H].
    destruct H as [H _]; [discriminate|]. exact H.
  - destruct (button_pressed_on_edge 3 Frontend.two_down Frontend.two_down
                Frontend.held_pad 1 0 eq_refl eq_refl eq_refl) as [_ H].
    destruct H as [H _]; [discriminate|]. exact H.
Defined.

(** ** The listing of a directory *)

Section SortEntries.

Import Frontend.

Lemma out_of_order_spec a b :
  out_of_order a b = true
  ↔ is_directory a < is_directory b
    ∨ (is_directory a = is_directory b ∧ 0 < strcmp (name a) (name b)).
Proof.
  unfold out_of_order.
  rewrite orb_true_iff, andb_true_iff, !Z.ltb_lt, Z.eqb_eq. done.
Qed.

Lemma out_of_order_asym a b :
  out_of_order a b = true → out_of_order b a = false.
Proof.
  intros H. destruct (out_of_order b a) eqn:E; [|done].
  apply out_of_order_spec in H, E.
  pose proof (strcmp_pos_asym (name a) (name b)). intuition lia.
Qed.

Lemma out_of_order_trans a b c :
  out_of_order a b = true → out_of_order b c = true → out_of_order a c = true.
Proof.
  intros H1 H2. apply out_of_order_spec in H1, H2. apply out_of_order_spec.
  pose proof (strcmp_pos_trans (name a) (name b) (name c)). intuition lia.
Qed.

(** One comparison of the sort. *)
Lemma swap_step l (i j : nat) a b :
  i ≠ j → l !! i = Some a → l !! j = Some b →
  length (swap_if_out_of_order i j l) = length l
  ∧ swap_if_out_of_order i j l ≡ₚ l
  ∧ (∀ k : nat, k ≠ i → k ≠ j → swap_if_out_of_order i j l !! k = l !! k)
  ∧ ((swap_if_out_of_order i j l !! i = Some a
      ∧ swap_if_out_of_order i j l !! j = Some b
      ∧ out_of_order a b = false)
     ∨ (swap_if_out_of_order i j l !! i = Some b
        ∧ swap_if_out_of_order i j l !! j = Some a
        ∧ out_of_order a b = true)).
Proof.
  intros Hij Hi Hj. unfold swap_if_out_of_order. rewrite Hi, Hj.
  pose proof (lookup_lt_Some _ _ _ Hi). pose proof (lookup_lt_Some _ _ _ Hj).
  destruct (out_of_order a b) eqn:Hab.
  - split; [by rewrite !length_insert|].
    split; [by apply Permutation_insert_swap|].
    split; [intros k Hki Hkj; by rewrite !list_lookup_insert_ne by done|].
    right. split; [|split; [|done]].
    + rewrite list_lookup_insert_ne by done.
      by rewrite list_lookup_insert_eq by done.
    + by rewrite list_lookup_insert_eq by (rewrite length_insert; done).
  - split; [done|]. split; [done|]. split; [done|]. by left.
Qed.

(** The inner loop brings a least entry of the positions from [i] on to
    position [i]. *)
Lemma sort_inner (i : nat) : ∀ (m : nat) l,
  (S i + m ≤ length l)%nat →
  let l' := foldl (λ l j, swap_if_out_of_order i j l) l (seq (S i) m) in
  length l' = length l
  ∧ l' ≡ₚ l
  ∧ (∀ k : nat, (k < i ∨ S i + m ≤ k)%nat → l' !! k = l !! k)
  ∧ (∀ (k : nat) a b, (i < k < S i + m)%nat →
       l' !! i = Some a → l' !! k = Some b → out_of_order a b = false)
  ∧ (∀ (q : nat) x, (i ≤ q < S i + m)%nat → l' !! q = Some x →
       ∃ q' : nat, (i ≤ q' < S i + m)%nat ∧ l !! q' = Some x).
Proof.
  induction m as [|m IH]; intros l Hlen l'.
  - subst l'. simpl. split; [done|]. split; [done|]. split; [done|].
    split; [intros; lia|]. intros q x Hq Hx. exists q. by split.
  - subst l'. rewrite seq_S, foldl_app. cbn [foldl].
    destruct (IH l) as (Hl & Hp & Hframe & Hmin & Hfrom); [lia|].
    set (l1 := foldl (λ l j, swap_if_out_of_order i j l) l (seq (S i) m)) in *.
    set (j := (S i + m)%nat).
    assert (Hi : is_Some (l1 !! i)) by (apply lookup_lt_is_Some; lia).
    assert (Hj : is_Some (l1 !! j)) by (apply lookup_lt_is_Some; lia).
    destruct Hi as [a Hi], Hj as [b Hj].
    destruct (swap_step l1 i j a b) as (Hl2 & Hp2 & Hframe2 & Hswap);
      [lia|done|done|].
    set (l2 := swap_if_out_of_order i j l1) in *.
    assert (Hjl : l !! j = Some b) by (rewrite <- Hframe by lia; done).
    split; [congruence|]. split; [by rewrite Hp2|]. split; [|split].
    + intros k Hk. rewrite Hframe2 by lia. apply Hframe. lia.
    + intros k x y Hk Hx Hy.
      destruct (decide (k = j)) as [->|Hkj].
      * destruct Hswap as [(Hi2 & Hj2 & Hab)|(Hi2 & Hj2 & Hab)].
        -- assert (x = a) as -> by congruence.
           assert (y = b) as -> by congruence. done.
        -- assert (x = b) as -> by congruence.
           assert (y = a) as -> by congruence. by apply out_of_order_asym.
      * rewrite Hframe2 in Hy by lia.
        destruct Hswap as [(Hi2 & Hj2 & Hab)|(Hi2 & Hj2 & Hab)].
        -- assert (x = a) as -> by congruence.
           apply (Hmin k); [lia|done|done].
        -- assert (x = b) as -> by congruence.
           destruct (out_of_order b y) eqn:Hby; [|done].
           pose proof (out_of_order_trans _ _ _ Hab Hby) as Hay.
           rewrite (Hmin k a y) in Hay; [done|lia|done|done].
    + intros q x Hq Hx.
      assert (Ha : ∃ q' : nat, (i ≤ q' < S i + S m)%nat ∧ l !! q' = Some a).
      { destruct (Hfrom i a) as (q' & Hq' & Hq'a); [lia|done|].
        exists q'. split; [lia|done]. }
      assert (Hb : ∃ q' : nat, (i ≤ q' < S i + S m)%nat ∧ l !! q' = Some b).
      { exists j. split; [lia|done]. }
      destruct (decide (q = i)) as [->|Hqi];
        [|destruct (decide (q = j)) as [->|Hqj]].
      * destruct Hswap as [(Hi2 & _)|(Hi2 & _)].
        -- assert (x = a) as -> by congruence. done.
        -- assert (x = b) as -> by congruence. done.
      * destruct Hswap as [(_ & Hj2 & _)|(_ & Hj2 & _)].
        -- assert (x = b) as -> by congruence. done.
        -- assert (x = a) as -> by congruence. done.
      * rewrite Hframe2 in Hx by done.
        destruct (Hfrom q x) as (q' & Hq' & Hq'x); [lia|done|].
        exists q'. split; [lia|done].
Qed.

(** The outer loop: after [m] rounds the first [m] positions hold entries
    in order, none of which must go after a later one. *)
Lemma sort_outer (n : nat) : ∀ (m : nat) l,
  (n ≤ length l)%nat → (m = 0 ∨ S m ≤ n)%nat →
  let l' := foldl (λ l i, sort_from n i l) l (seq 0 m) in
  length l' = length l
  ∧ l' ≡ₚ l
  ∧ (∀ k : nat, (n ≤ k)%nat → l' !! k = l !! k)
  ∧ (∀ (p q : nat) a b, (p < m)%nat → (p < q < n)%nat →
       l' !! p = Some a → l' !! q = Some b → out_of_order a b = false).
Proof.
  induction m as [|m IH]; intros l Hn Hm l'.
  - subst l'. simpl. split; [done|]. split; [done|]. split; [done|].
    intros; lia.
  - subst l'. rewrite seq_S, foldl_app. cbn [foldl]. change (0 + m)%nat with m.
    destruct (IH l) as (Hl & Hp & Hframe & Hsorted); [done|lia|].
    set (l1 := foldl (λ l i, sort_from n i l) l (seq 0 m)) in *.
    unfold sort_from.
    destruct (sort_inner m (n - S m) l1)
      as (Hl2 & Hp2 & Hframe2 & Hmin & Hfrom); [lia|].
    set (l2 := foldl (λ l j, swap_if_out_of_order m j l) l1
                 (seq (S m) (n - S m))) in *.
    replace (S m + (n - S m))%nat with n in * by lia.
    split; [congruence|]. split; [by rewrite Hp2|]. split; [|].
    + intros k Hk. rewrite Hframe2 by lia. by apply Hframe.
    + intros p q a b Hpm Hpq Ha Hb.
      destruct (decide (p = m)) as [->|Hne].
      * by apply (Hmin q a b).
      * rewrite Hframe2 in Ha by lia.
        destruct (decide (q < m)%nat).
        -- rewrite Hframe2 in Hb by lia. apply (Hsorted p q); [lia|lia|done|done].
        -- destruct (Hfrom q b) as (q' & Hq' & Hq'b); [lia|done|].
           apply (Hsorted p q'); [lia|lia|done|done].
Qed.

(** The sort orders the first [n] entries, and only permutes them. *)
Lemma sort_entries_sorted (n : nat) l :
  (n ≤ length l)%nat →
  length (sort_entries n l) = length l
  ∧ take n (sort_entries n l) ≡ₚ take n l
  ∧ drop n (sort_entries n l) = drop n l
  ∧ in_order (take n (sort_entries n l)).
Proof.
  intros Hn. unfold sort_entries.
  destruct (sort_outer n (n - 1) l) as (Hl & Hp & Hframe & Hsorted); [done|lia|].
  set (l' := foldl (λ l i, sort_from n i l) l (seq 0 (n - 1))) in *.
  assert (Hdrop : drop n l' = drop n l).
  { apply list_eq. intros k. rewrite !lookup_drop. apply Hframe. lia. }
  split; [done|]. split; [|split; [done|]].
  - apply (Permutation_app_inv_r (drop n l)).
    rewrite <- Hdrop at 1. by rewrite !take_drop.
  - intros i j a b Hij Ha Hb.
    apply lookup_take_Some in Ha as [Ha Hi]. apply lookup_take_Some in Hb as [Hb Hj].
    apply (Hsorted i j); [lia|lia|done|done].
Qed.

(** The [readdir] loop appends the entries of the elements it keeps, as
    long as there is room. *)
Lemma read_entries_listed (dir : list dirent) : ∀ fm,
  (file_count fm ≤ MAX_FILES)%nat →
  length (files fm) = MAX_FILES →
  let fm' := read_entries dir fm in
  file_count fm' = Nat.min (file_count fm + length (kept dir)) MAX_FILES
  ∧ length (files fm') = MAX_FILES
  ∧ listed fm'
    = listed fm ++ take (MAX_FILES - file_count fm) (entry_of <$> kept dir)
  ∧ current_path fm' = current_path fm
  ∧ selected_index fm' = selected_index fm
  ∧ scroll_offset fm' = scroll_offset fm
  ∧ visible_items fm' = visible_items fm.
Proof.
  unfold listed, kept.
  induction dir as [|ent dir IH]; intros fm Hcount Hlen; cbv zeta in *.
  - simpl. rewrite Nat.add_0_r, Nat.min_l by done.
    rewrite take_nil, app_nil_r. by repeat split.
  - cbn [read_entries].
    destruct (file_count fm <? MAX_FILES)%nat eqn:Hroom.
    + apply Nat.ltb_lt in Hroom. rewrite filter_cons.
      destruct (decide (strcmp (d_name ent) (lit ".") = 0)) as [Hdot|Hdot].
      * rewrite decide_False by (by intros ?). by apply IH.
      * rewrite decide_True by done.
        destruct (IH (read_entry fm ent)) as (Hc & Hl & Hlisted & Hrest);
          [cbn [read_entry file_count]; lia
          |cbn [read_entry files]; by rewrite length_insert|].
        cbn [read_entry file_count files current_path selected_index
             scroll_offset visible_items] in Hc, Hl, Hlisted, Hrest.
        split; [rewrite Hc; cbn [length]; f_equal; lia|]. split; [done|].
        split; [|done].
        rewrite Hlisted.
        rewrite (take_S_r _ _ (entry_of ent))
          by (apply list_lookup_insert_eq; lia).
        rewrite take_insert_ge by lia.
        rewrite fmap_cons, <- app_assoc.
        replace (MAX_FILES - file_count fm)%nat
          with (S (MAX_FILES - S (file_count fm))) by lia.
        done.
    + apply Nat.ltb_ge in Hroom.
      assert (file_count fm = MAX_FILES) as Heq by lia.
      rewrite Heq, Nat.sub_diag, take_0, app_nil_r.
      rewrite Nat.min_r by lia. by repeat split.
Qed.

End SortEntries.

(** After [list_directory] on a directory that opens, the listing holds
    the entries of the stream other than ["."], at most [MAX_FILES] of
    them, in order: directories before files, and names ascending by
    [strcmp] within each of the two.  The path and the array's size are
    untouched. *)
Theorem list_directory_sorted (opendir : Frontend.cstring → option (list Frontend.dirent))
    (fm : Frontend.FileManager) (dir : list Frontend.dirent) :
  length (Frontend.files fm) = Frontend.MAX_FILES →
  opendir (Frontend.current_path fm) = Some dir →
  let fm' := Frontend.list_directory opendir fm in
  Frontend.file_count fm'
    = Nat.min (length (Frontend.kept dir)) Frontend.MAX_FILES
  ∧ Frontend.listed fm'
    ≡ₚ Frontend.entry_of <$> take Frontend.MAX_FILES (Frontend.kept dir)
  ∧ Frontend.in_order (Frontend.listed fm')
  ∧ (∀ (i j : nat) a b, (i < j)%nat →
       Frontend.listed fm' !! i = Some a → Frontend.listed fm' !! j = Some b →
       Frontend.is_directory b ≤ Frontend.is_directory a
       ∧ (Frontend.is_directory a = Frontend.is_directory b →
          Frontend.strcmp (Frontend.name a) (Frontend.name b) ≤ 0))
  ∧ (∀ ent, Frontend.c_string (Frontend.d_name ent) →
       (ent ∈ Frontend.kept dir
        ↔ ent ∈ dir ∧ Frontend.d_name ent ≠ Frontend.lit "."))
  ∧ Frontend.current_path fm' = Frontend.current_path fm
  ∧ length (Frontend.files fm') = Frontend.MAX_FILES.
Proof.
  intros Hlen Hopen fm'. subst fm'. unfold Frontend.list_directory.
  simpl. rewrite Hopen.
  set (fm0 := {| Frontend.current_path := Frontend.current_path fm;
                 Frontend.files := Frontend.files fm;
                 Frontend.file_count := 0;
                 Frontend.selected_index := Frontend.selected_index fm;
                 Frontend.scroll_offset := Frontend.scroll_offset fm;
                 Frontend.visible_items := Frontend.visible_items fm |}).
  destruct (read_entries_listed dir fm0) as (Hc & Hl & Hlisted & Hpath & _);
    [simpl; lia | done |].
  unfold Frontend.listed in Hlisted.
  change (Frontend.file_count fm0) with 0%nat in Hc, Hlisted.
  change (Frontend.current_path fm0) with (Frontend.current_path fm) in Hpath.
  rewrite Nat.sub_0_r, take_0, app_nil_l in Hlisted. rewrite Nat.add_0_l in Hc.
  set (fm1 := Frontend.read_entries dir fm0) in *.
  destruct (sort_entries_sorted (Frontend.file_count fm1) (Frontend.files fm1))
    as (Hsl & Hsp & _ & Hso).
  { rewrite Hl, Hc. lia. }
  unfold Frontend.listed in *.
  cbn [Frontend.file_count Frontend.files Frontend.current_path].
  split; [done|].
  split; [|split; [done|split; [|split; [|split; [done|by rewrite Hsl]]]]].
  - rewrite Hsp, Hlisted. by rewrite fmap_take.
  - intros i j a b Hij Ha Hb.
    pose proof (Hso i j a b Hij Ha Hb) as Hab.
    destruct (decide (Frontend.is_directory a < Frontend.is_directory b)) as [Hlt|Hge].
    { assert (Frontend.out_of_order a b = true)
        by (apply out_of_order_spec; by left). congruence. }
    split; [lia|]. intros Heq.
    destruct (decide (0 < Frontend.strcmp (Frontend.name a) (Frontend.name b)));
      [|lia].
    assert (Frontend.out_of_order a b = true)
      by (apply out_of_order_spec; by right). congruence.
  - intros ent Hent. unfold Frontend.kept. rewrite list_elem_of_filter.
    rewrite strcmp_eq; [tauto|done|].
    unfold Frontend.c_string. simpl.
    rewrite not_elem_of_cons. split; [done|apply not_elem_of_nil].
Qed.

Lemma list_directory_sorted_witness :
  Frontend.name
  <$> Frontend.listed
        (Frontend.list_directory (λ _, Some Frontend.roms_dir)
           (Frontend.fresh (Frontend.lit "/roms")))
  ≡ₚ Frontend.lit
     <$> ["zelda.z64"; ".."; "mario.N64"; "saves"; "notes.txt"]%string.
Proof.
  destruct (list_directory_sorted (λ _, Some Frontend.roms_dir)
              (Frontend.fresh (Frontend.lit "/roms")) Frontend.roms_dir)
    as (_ & Hperm & _).
  - reflexivity.
  - reflexivity.
  - rewrite Hperm. reflexivity.
Defined.

(** ** Changing directory *)

Section ChangeDirectory.

Import Frontend.

Lemma read_entries_path (dir : list dirent) : ∀ fm,
  current_path (read_entries dir fm) = current_path fm
  ∧ visible_items (read_entries dir fm) = visible_items fm.
Proof.
  induction dir as [|ent dir IH]; intros fm; [done|].
  cbn [read_entries]. destruct (file_count fm <? MAX_FILES)%nat; [|done].
  case_decide; [apply IH|]. destruct (IH (read_entry fm ent)) as [-> ->]. done.
Qed.

Lemma list_directory_path opendir fm :
  current_path (list_directory opendir fm) = current_path fm
  ∧ visible_items (list_directory opendir fm) = visible_items fm.
Proof.
  unfold list_directory. cbn [current_path].
  destruct (opendir (current_path fm)); [|done].
  cbn [current_path visible_items].
  by destruct (read_entries_path l
       {| current_path := current_path fm; files := files fm; file_count := 0;
          selected_index := selected_index fm;
          scroll_offset := scroll_offset fm;
          visible_items := visible_items fm |}) as [-> ->].
Qed.

Lemma change_directory_path opendir fm dir :
  current_path (change_directory opendir fm dir)
  = if decide (strcmp dir (lit "..") = 0) then
      match strrchr (current_path fm) PATH_SEPARATOR with
      | Some last_sep =>
          if decide (last_sep ≠ 0%nat) then take last_sep (current_path fm)
          else current_path fm
      | None => current_path fm
      end
    else take (MAX_PATH_LENGTH - 1) (current_path fm ++ [PATH_SEPARATOR] ++ dir).
Proof.
  unfold change_directory. cbn [current_path].
  rewrite (proj1 (list_directory_path _ _)).
  case_decide.
  - destruct (strrchr (current_path fm) PATH_SEPARATOR); [|done].
    by case_decide.
  - unfold set_path. cbn [current_path]. rewrite take_take.
    by rewrite Nat.min_id.
Qed.

End ChangeDirectory.

(** Entering a directory and coming back with [".."] restores the path:
    for a non-empty path and a directory name without separator, other than
    [".."], that fits the buffer, [change_directory] appends the separator
    and the name, and [change_directory] with [".."] then cuts the path at
    its last separator, which gives the path one started from. *)
Theorem change_directory_round_trip
    (opendir : Frontend.cstring → option (list Frontend.dirent))
    (fm : Frontend.FileManager) (dir : Frontend.cstring) :
  Frontend.current_path fm ≠ [] →
  Frontend.PATH_SEPARATOR ∉ dir →
  Frontend.strcmp dir (Frontend.lit "..") ≠ 0 →
  (length (Frontend.current_path fm) + 1 + length dir
   ≤ Frontend.MAX_PATH_LENGTH - 1)%nat →
  let fm1 := Frontend.change_directory opendir fm dir in
  let fm2 := Frontend.change_directory opendir fm1 (Frontend.lit "..") in
  Frontend.current_path fm1
    = Frontend.current_path fm ++ [Frontend.PATH_SEPARATOR] ++ dir
  ∧ Frontend.current_path fm2 = Frontend.current_path fm.
Proof.
  intros Hpath Hsep Hdir Hfit fm1 fm2.
  assert (H1 : Frontend.current_path fm1
               = Frontend.current_path fm ++ [Frontend.PATH_SEPARATOR] ++ dir).
  { subst fm1. rewrite change_directory_path, decide_False by done.
    apply take_ge. rewrite !length_app. cbn [length]. lia. }
  split; [done|].
  subst fm2. rewrite change_directory_path, decide_True by reflexivity.
  rewrite H1. simpl. rewrite strrchr_last by done.
  rewrite decide_True by (destruct (Frontend.current_path fm); simpl; [done|lia]).
  by rewrite take_app_length.
Qed.

Lemma change_directory_round_trip_witness :
  Frontend.current_path
    (Frontend.change_directory (λ _, Some Frontend.roms_dir)
       (Frontend.change_directory (λ _, Some Frontend.roms_dir)
          (Frontend.fresh (Frontend.lit "/roms")) (Frontend.lit "saves"))
       (Frontend.lit ".."))
  = Frontend.lit "/roms".
Proof.
  apply (change_directory_round_trip (λ _, Some Frontend.roms_dir)
           (Frontend.fresh (Frontend.lit "/roms")) (Frontend.lit "saves")).
  - discriminate.
  - apply (bool_decide_unpack _). by vm_compute.
  - by vm_compute.
  - simpl. lia.
Defined.

(** [change_directory] with [".."] never leaves the first level: when the
    path has no separator other than a leading one (["/home"], ["/"], or a
    bare name) the path stays as it is.  Whatever the argument, the
    selection and the scroll offset are reset to 0, and a path within
    [MAX_PATH_LENGTH - 1] characters stays within them. *)
Theorem change_directory_up_at_top
    (opendir : Frontend.cstring → option (list Frontend.dirent))
    (fm : Frontend.FileManager) (dir : Frontend.cstring) :
  (length (Frontend.current_path fm) ≤ Frontend.MAX_PATH_LENGTH - 1)%nat →
  ((Frontend.PATH_SEPARATOR ∉ Frontend.current_path fm
    ∨ ∃ first_level, Frontend.current_path fm = Frontend.PATH_SEPARATOR :: first_level
                     ∧ Frontend.PATH_SEPARATOR ∉ first_level) →
   Frontend.current_path
     (Frontend.change_directory opendir fm (Frontend.lit ".."))
   = Frontend.current_path fm)
  ∧ Frontend.selected_index (Frontend.change_directory opendir fm dir) = 0
  ∧ Frontend.scroll_offset (Frontend.change_directory opendir fm dir) = 0
  ∧ (length (Frontend.current_path (Frontend.change_directory opendir fm dir))
     ≤ Frontend.MAX_PATH_LENGTH - 1)%nat.
Proof.
  intros Hlen. split; [|split; [done|split; [done|]]].
  - intros Htop. rewrite change_directory_path, decide_True by reflexivity.
    destruct Htop as [Hnone|(first_level & Hpath & Hnone)].
    + by rewrite strrchr_absent.
    + rewrite Hpath.
      pose proof (strrchr_last [] first_level Frontend.PATH_SEPARATOR Hnone)
        as Hlast.
      rewrite app_nil_l in Hlast. rewrite Hlast. cbn [length].
      by rewrite decide_False by (by intros ?).
  - rewrite change_directory_path. case_decide.
    + destruct (Frontend.strrchr _ _); [|done].
      case_decide; [|done]. rewrite length_take. lia.
    + rewrite length_take. lia.
Qed.

Lemma change_directory_up_at_top_witness :
  Frontend.current_path
    (Frontend.change_directory (λ _, None)
       (Frontend.fresh (Frontend.lit "/roms")) (Frontend.lit ".."))
  = Frontend.lit "/roms".
Proof.
  destruct (change_directory_up_at_top (λ _, None)
              (Frontend.fresh (Frontend.lit "/roms")) (Frontend.lit ".."))
    as [Htop _].
  - simpl. lia.
  - apply Htop. right. exists (Frontend.lit "roms").
    split; [reflexivity|]. apply (bool_decide_unpack _). by vm_compute.
Defined.

(** ** The variables of the core *)

Section Variables_.

Import Frontend.

Lemma strchr_absent' (s : cstring) (ch : ascii) : ch ∉ s → strchr s ch = None.
Proof.
  induction s as [|c s IH]; [done|]. intros Hs. simpl.
  rewrite decide_False by (intros ->; apply Hs; left).
  rewrite IH; [done|]. intros ?. apply Hs. by right.
Qed.

Lemma strchr_first (s1 s2 : cstring) (ch : ascii) :
  ch ∉ s1 → strchr (s1 ++ ch :: s2) ch = Some (length s1).
Proof.
  induction s1 as [|c s1 IH]; intros Hs; simpl.
  - by rewrite decide_True.
  - rewrite decide_False by (intros ->; apply Hs; left).
    rewrite IH; [done|]. intros ?. apply Hs. by right.
Qed.

Lemma strchr_None (s : cstring) (ch : ascii) : strchr s ch = None → ch ∉ s.
Proof.
  induction s as [|c s IH]; simpl; [intros _; apply not_elem_of_nil|].
  case_decide; [done|]. destruct (strchr s ch) eqn:E; [done|]. intros _.
  apply not_elem_of_cons. split; [done|by apply IH].
Qed.

Lemma spaces_blanks (blanks s : cstring) :
  Forall (λ c, isspace c = true) blanks →
  (∀ c, head s = Some c → isspace c = false) →
  spaces (blanks ++ s) = length blanks.
Proof.
  intros Hb Hs. induction Hb as [|c blanks Hc _ IH]; simpl.
  - destruct s as [|c s]; [done|]. simpl. by rewrite (Hs c).
  - by rewrite Hc, IH.
Qed.

Lemma drop_past (desc s : cstring) (c : ascii) :
  drop (S (length desc)) (desc ++ c :: s) = s.
Proof. induction desc as [|? desc IH]; simpl; [by rewrite drop_0|done]. Qed.

Lemma drop_past_blanks (desc blanks s : cstring) (c : ascii) :
  drop (S (length desc) + length blanks) (desc ++ c :: blanks ++ s) = s.
Proof.
  induction desc as [|? desc IH]; simpl; [|done].
  by rewrite drop_app_length.
Qed.

Lemma blanks_no_pipe (blanks : cstring) :
  Forall (λ c, isspace c = true) blanks → "|"%char ∉ blanks.
Proof.
  intros Hb Hin. rewrite Forall_forall in Hb. by apply Hb in Hin.
Qed.

Lemma strcmp_refl (s : cstring) : strcmp s s = 0.
Proof. induction s as [|c s IH]; simpl; [done|]. by rewrite decide_True. Qed.

Lemma find_variable_set (vars g : list retro_variable) (k : cstring) :
  c_string k → Forall (λ invar, c_string (key invar)) vars →
  set_variables vars = Some g →
  ∀ (i : nat) invar,
    vars !! i = Some invar → key invar = k →
    (∀ (j : nat) earlier, (j < i)%nat → vars !! j = Some earlier → key earlier ≠ k) →
    ∃ v d, value invar = Some v ∧ default_value v = Some d
           ∧ find_variable k g = Some {| key := k; value := Some d |}.
Proof.
  intros Hck Hkeys. unfold set_variables. rewrite mapM_Some. intros Hall.
  induction Hall as [|invar0 outvar vars g Hout _ IH]; intros i invar Hi Hk Hfirst;
    [done|].
  apply Forall_cons in Hkeys as [Hkey0 Hkeys].
  destruct (value invar0) as [v0|] eqn:Hv0; [|done]. simpl in Hout.
  destruct (default_value v0) as [d0|] eqn:Hd0; [|done]. simpl in Hout.
  injection Hout as <-.
  destruct i as [|i]; simpl in Hi.
  - injection Hi as ->. exists v0, d0. split; [done|]. split; [done|].
    simpl. rewrite Hk. by rewrite decide_True by apply strcmp_refl.
  - destruct (IH Hkeys i invar Hi Hk) as (v & d & Hv & Hd & Hfind).
    { intros j earlier Hj. apply (Hfirst (S j)). lia. }
    exists v, d. split; [done|]. split; [done|]. simpl.
    rewrite decide_False; [done|].
    rewrite strcmp_eq by done. intros ->.
    by apply (Hfirst 0%nat invar0); [lia|done|].
Qed.

Lemma find_variable_unknown (vars g : list retro_variable) (k : cstring) :
  c_string k → Forall (λ invar, c_string (key invar)) vars →
  set_variables vars = Some g →
  (∀ invar, invar ∈ vars → key invar ≠ k) →
  find_variable k g = None.
Proof.
  intros Hck Hkeys. unfold set_variables. rewrite mapM_Some. intros Hall.
  induction Hall as [|invar0 outvar vars g Hout _ IH]; intros Hno; [done|].
  apply Forall_cons in Hkeys as [Hkey0 Hkeys].
  destruct (value invar0) as [v0|] eqn:Hv0; [|done]. simpl in Hout.
  destruct (default_value v0) as [d0|] eqn:Hd0; [|done]. simpl in Hout.
  injection Hout as <-. simpl.
  rewrite decide_False.
  - apply IH; [done|]. intros invar Hin. apply Hno. by right.
  - rewrite strcmp_eq by done. intros ->. by apply (Hno invar0); [left|].
Qed.

End Variables_.

(** The value [core_environment] stores for a variable is its first
    option: for a description without semicolon or pipe, a semicolon, any
    run of spaces, and options separated by pipes, [SET_VARIABLES] keeps
    the text of the first option, without the spaces before it, and drops
    the others; with a single option and no pipe it keeps that option. *)
Theorem default_value_first_option (desc blanks first rest : Frontend.cstring) :
  ";"%char ∉ desc → "|"%char ∉ desc →
  Forall (λ c, Frontend.isspace c = true) blanks →
  (∀ c, head first = Some c → Frontend.isspace c = false) →
  "|"%char ∉ first →
  Frontend.default_value (desc ++ ";"%char :: blanks ++ first ++ "|"%char :: rest)
    = Some first
  ∧ Frontend.default_value (desc ++ ";"%char :: blanks ++ first) = Some first.
Proof.
  intros Hsemi Hpipe Hblanks Hhead Hfirst.
  pose proof (blanks_no_pipe blanks Hblanks) as Hbp.
  assert (Hprefix : "|"%char ∉ desc ++ ";"%char :: blanks ++ first).
  { rewrite elem_of_app, elem_of_cons, elem_of_app.
    intros [?|[?|[?|?]]]; done. }
  split.
  - unfold Frontend.default_value. rewrite strchr_first by done.
    cbn [mbind option_bind].
    replace (desc ++ ";"%char :: blanks ++ first ++ "|"%char :: rest)
      with ((desc ++ ";"%char :: blanks ++ first) ++ "|"%char :: rest) at 1
      by (by rewrite <- !app_assoc, <- app_comm_cons, <- !app_assoc).
    rewrite strchr_first by done.
    rewrite drop_past, spaces_blanks; [|done|].
    2:{ intros c. destruct first as [|c' first]; simpl.
        - by intros [= <-].
        - intros [= <-]. by apply Hhead. }
    rewrite decide_True by (rewrite !length_app; simpl; rewrite length_app; lia).
    rewrite drop_past_blanks. f_equal.
    replace (length (desc ++ ";"%char :: blanks ++ first)
             - (S (length desc) + length blanks))%nat
      with (length first)
      by (rewrite !length_app; simpl; rewrite length_app; lia).
    by rewrite take_app_length.
  - unfold Frontend.default_value. rewrite strchr_first by done.
    cbn [mbind option_bind].
    rewrite strchr_absent' by done.
    rewrite drop_past, spaces_blanks by done.
    by rewrite drop_past_blanks.
Qed.

Lemma default_value_first_option_witness :
  Frontend.default_value
    (Frontend.lit "CPU Core; dynamic_recompiler|cached_interpreter|pure_interpreter")
  = Some (Frontend.lit "dynamic_recompiler").
Proof.
  apply (default_value_first_option (Frontend.lit "CPU Core") (Frontend.lit " ")
           (Frontend.lit "dynamic_recompiler")
           (Frontend.lit "cached_interpreter|pure_interpreter")).
  - apply (bool_decide_unpack _). by vm_compute.
  - apply (bool_decide_unpack _). by vm_compute.
  - by repeat constructor.
  - by intros c [= <-].
  - apply (bool_decide_unpack _). by vm_compute.
Defined.

(** What the core reads back is what [core_environment] stored: once
    [SET_VARIABLES] has been served, [GET_VARIABLE] answers true and gives,
    for a key, the value stored for the first variable declared with that
    key, that is the value [default_value] extracts from its description.
    For a key no variable has it still answers true, and leaves the value
    of the caller as it was; before any [SET_VARIABLES] it answers false. *)
Theorem get_variable_after_set (vars g : list Frontend.retro_variable)
    (var : Frontend.retro_variable) :
  Frontend.c_string (Frontend.key var) →
  Forall (λ invar, Frontend.c_string (Frontend.key invar)) vars →
  Frontend.set_variables vars = Some g →
  (∀ (i : nat) invar,
     vars !! i = Some invar → Frontend.key invar = Frontend.key var →
     (∀ (j : nat) earlier, (j < i)%nat → vars !! j = Some earlier →
        Frontend.key earlier ≠ Frontend.key var) →
     ∃ v d, Frontend.value invar = Some v ∧ Frontend.default_value v = Some d
            ∧ Frontend.get_variable (Some g) var
              = (true, {| Frontend.key := Frontend.key var;
                          Frontend.value := Some d |}))
  ∧ ((∀ invar, invar ∈ vars → Frontend.key invar ≠ Frontend.key var) →
     Frontend.get_variable (Some g) var = (true, var))
  ∧ Frontend.get_variable None var = (false, var)
  ∧ length g = length vars.
Proof.
  intros Hck Hkeys Hset. split; [|split; [|split; [done|]]].
  - intros i invar Hi Hk Hfirst.
    destruct (find_variable_set vars g (Frontend.key var) Hck Hkeys Hset
                i invar Hi Hk Hfirst) as (v & d & Hv & Hd & Hfind).
    exists v, d. split; [done|]. split; [done|].
    unfold Frontend.get_variable. by rewrite Hfind.
  - intros Hno. unfold Frontend.get_variable.
    by rewrite (find_variable_unknown vars g (Frontend.key var)).
  - unfold Frontend.set_variables in Hset. apply mapM_Some in Hset.
    symmetry. by eapply Forall2_length.
Qed.

Lemma get_variable_after_set_witness :
  ∃ g, Frontend.set_variables Frontend.core_variables = Some g
       ∧ ∃ v d,
           Some (Frontend.lit "Aspect Ratio;   4:3") = Some v
           ∧ Frontend.default_value v = Some d
           ∧ Frontend.get_variable (Some g)
               {| Frontend.key := Frontend.lit "core-aspect";
                  Frontend.value := None |}
             = (true, {| Frontend.key := Frontend.lit "core-aspect";
                         Frontend.value := Some d |}).
Proof.
  eexists. split; [by vm_compute|].
  refine (proj1 (get_variable_after_set Frontend.core_variables _
                   {| Frontend.key := Frontend.lit "core-aspect";
                      Frontend.value := None |} _ _ _) 1%nat
            {| Frontend.key := Frontend.lit "core-aspect";
               Frontend.value := Some (Frontend.lit "Aspect Ratio;   4:3") |}
            _ _ _).
  all: try reflexivity.
  - apply (bool_decide_unpack _). by vm_compute.
  - repeat constructor; apply (bool_decide_unpack _); by vm_compute.
  - intros [|[|j]] earlier Hj; [|lia|lia]. intros [= <-]. by vm_compute.
Defined.

(** The descriptions [core_environment] cannot take: for a description
    without semicolon, and for one whose first pipe stands before its
    first semicolon (the length handed to [memcpy] is then negative),
    [SET_VARIABLES] has no value to store, and one such variable leaves the
    whole request without result. *)
Theorem default_value_undefined (d1 d2 rest : Frontend.cstring)
    (vars1 vars2 : list Frontend.retro_variable) (k : Frontend.cstring) :
  ";"%char ∉ d1 → "|"%char ∉ d1 → ";"%char ∉ d2 →
  Frontend.default_value (d1 ++ d2) = None
  ∧ Frontend.default_value (d1 ++ "|"%char :: d2 ++ ";"%char :: rest) = None
  ∧ Frontend.set_variables
      (vars1 ++ {| Frontend.key := k;
                   Frontend.value := Some (d1 ++ "|"%char :: d2 ++ ";"%char :: rest) |}
             :: vars2) = None.
Proof.
  intros Hsemi1 Hpipe1 Hsemi2.
  assert (Hbefore : Frontend.default_value
                      (d1 ++ "|"%char :: d2 ++ ";"%char :: rest) = None).
  { assert (Hs : Frontend.strchr (d1 ++ "|"%char :: d2 ++ ";"%char :: rest) ";"%char
                 = Some (length (d1 ++ "|"%char :: d2))).
    { rewrite <- (strchr_first (d1 ++ "|"%char :: d2) rest ";"%char).
      - by rewrite <- app_assoc.
      - rewrite elem_of_app, elem_of_cons. intros [?|[?|?]]; done. }
    unfold Frontend.default_value. rewrite Hs.
    cbn [mbind option_bind]. rewrite strchr_first by done.
    rewrite decide_False; [done|]. rewrite length_app. cbn [length]. lia. }
  split; [|split; [done|]].
  - unfold Frontend.default_value.
    rewrite (strchr_absent' (d1 ++ d2) ";"%char); [done|].
    rewrite elem_of_app. intros [?|?]; done.
  - unfold Frontend.set_variables.
    destruct (mapM _ _) as [g|] eqn:Hg; [|done].
    apply mapM_Some in Hg. apply Forall2_app_inv_l in Hg
      as (g1 & g2 & _ & Hg & _).
    apply Forall2_cons_inv_l in Hg as (outvar & g' & Hout & _ & _).
    simpl in Hout. by rewrite Hbefore in Hout.
Qed.

Lemma default_value_undefined_witness :
  Frontend.default_value (Frontend.lit "4:3|16:9; Aspect Ratio") = None.
Proof.
  apply (default_value_undefined (Frontend.lit "4:3") (Frontend.lit "16:9")
           (Frontend.lit " Aspect Ratio") [] [] (Frontend.lit "core-aspect"));
    apply (bool_decide_unpack _); by vm_compute.
Defined.
